(** * gmaps-gpx: the URL extractor, the track serializer and the slug helper

    A shallow embedding of [src/lib.ts] and the properties its
    specification states about it.

    ** Strings.  A JavaScript string is modelled by a [string]: the
    sequence of its code units, for strings all of whose code units are
    below 256 (ASCII and Latin-1).  On that range [\d], [\w], [\s],
    [trim] and [toLowerCase] are the ones of ECMAScript.

    ** Built-ins.  What the module calls and cannot be written over such
    strings ([new URL], [URLSearchParams.get], [decodeURIComponent],
    [parseFloat], the conversion of a number to a string) is the
    signature [Platform]; the functions of the module are defined, and
    the theorems proved, for every platform.  [Ref] is a reference
    platform on which the examples are evaluated. *)

From Stdlib Require Import String Ascii List Bool Arith Lia ZArith QArith.
From Stdlib Require Import SpecFloat.
Import ListNotations.
Open Scope bool_scope.
Open Scope list_scope.
Open Scope string_scope.
Open Scope nat_scope.

Set Implicit Arguments.

(* ================================================================= *)
(** * Part I: definitions *)
(* ================================================================= *)

(** ** Strings and character classes *)

Module Str.

Definition code (c : ascii) : nat := nat_of_ascii c.

Definition between (lo hi : nat) (c : ascii) : bool :=
  (lo <=? code c) && (code c <=? hi).

Definition chr (a : ascii) : ascii -> bool := fun c => Ascii.eqb c a.

(** [\d] *)
Definition digit (c : ascii) : bool := between 48 57 c.

(** [\w]: [A-Za-z0-9_] *)
Definition word (c : ascii) : bool :=
  between 65 90 c || between 97 122 c || digit c || chr "_" c.

(** [\s], and what [trim] removes: TAB, LF, VT, FF, CR, SP, NBSP. *)
Definition space (c : ascii) : bool :=
  between 9 13 c || (code c =? 32) || (code c =? 160).

(** One code unit of [toLowerCase]: A-Z, and U+00C0..U+00DE but U+00D7. *)
Definition lower (c : ascii) : ascii :=
  if between 65 90 c || (between 192 222 c && negb (code c =? 215))
  then ascii_of_nat (code c + 32) else c.

Fixpoint map (f : ascii -> ascii) (s : string) : string :=
  match s with
  | EmptyString => EmptyString
  | String c t => String (f c) (map f t)
  end.

(** Each character replaced by a string. *)
Fixpoint subst (f : ascii -> string) (s : string) : string :=
  match s with
  | EmptyString => EmptyString
  | String c t => f c ++ subst f t
  end.

Fixpoint filter (p : ascii -> bool) (s : string) : string :=
  match s with
  | EmptyString => EmptyString
  | String c t => if p c then String c (filter p t) else filter p t
  end.

Fixpoint forallb (p : ascii -> bool) (s : string) : bool :=
  match s with
  | EmptyString => true
  | String c t => p c && forallb p t
  end.

Definition is_empty (s : string) : bool :=
  match s with EmptyString => true | _ => false end.

(** The longest prefix of characters in [p], and what follows it. *)
Fixpoint take_while (p : ascii -> bool) (s : string) : string :=
  match s with
  | EmptyString => EmptyString
  | String c t => if p c then String c (take_while p t) else EmptyString
  end.

Fixpoint drop_while (p : ascii -> bool) (s : string) : string :=
  match s with
  | EmptyString => EmptyString
  | String c t => if p c then drop_while p t else s
  end.

(** The characters in [p] at the end of the string removed. *)
Fixpoint drop_while_end (p : ascii -> bool) (s : string) : string :=
  match s with
  | EmptyString => EmptyString
  | String c t =>
      let t' := drop_while_end p t in
      if p c && is_empty t' then EmptyString else String c t'
  end.

(** [s] without the prefix [pre], when it starts with it. *)
Fixpoint strip_prefix (pre s : string) : option string :=
  match pre with
  | EmptyString => Some s
  | String a pre' =>
      match s with
      | String c t => if Ascii.eqb c a then strip_prefix pre' t else None
      | EmptyString => None
      end
  end.

(** [String.prototype.trim] *)
Definition trim (s : string) : string :=
  drop_while_end space (drop_while space s).

(** [String.prototype.toLowerCase] *)
Definition toLowerCase (s : string) : string := map lower s.

(** [String.prototype.split] with a one-character separator: the
    pieces between the separators, empty ones included. *)
Fixpoint split (sep : ascii) (s : string) : list string :=
  match s with
  | EmptyString => [EmptyString]
  | String c t =>
      if Ascii.eqb c sep then EmptyString :: split sep t
      else match split sep t with
           | x :: xs => String c x :: xs
           | [] => [String c EmptyString]
           end
  end.

(** A natural number in decimal, as a template literal prints it. *)
Definition digit_of (n : nat) : ascii := ascii_of_nat (48 + n).

Fixpoint of_nat_fuel (fuel n : nat) (acc : string) : string :=
  match fuel with
  | 0 => acc
  | S f =>
      let acc' := String (digit_of (n mod 10)) acc in
      if n <? 10 then acc' else of_nat_fuel f (n / 10) acc'
  end.

Definition of_nat (n : nat) : string := of_nat_fuel (S n) n EmptyString.

(** [String.prototype.padStart(k, "0")] *)
Fixpoint repeat (c : ascii) (n : nat) : string :=
  match n with 0 => EmptyString | S k => String c (repeat c k) end.

Definition padStart0 (k : nat) (s : string) : string :=
  repeat "0" (k - String.length s) ++ s.

End Str.

(** ** Regular expressions

    The fragment of ECMAScript patterns the module uses: character
    classes, greedy [?], [*] and [+] on a class, sequence, alternation,
    numbered capturing groups, [^] and [$] (no [m] flag).  Matching is
    the backtracking of the language: leftmost start, alternatives in
    order, greedy quantifiers giving characters back one at a time. *)

Module Re.

Definition cset := ascii -> bool.

Inductive regex : Type :=
| Eps
| Chr (p : cset)
| Opt (p : cset)
| Star (p : cset)
| Plus (p : cset)
| Seq (r1 r2 : regex)
| Alt (r1 r2 : regex)
| Group (i : nat) (r : regex)
| Bol
| Eol.

(** A literal text. *)
Fixpoint lit (s : string) : regex :=
  match s with
  | EmptyString => Eps
  | String c t => Seq (Chr (Str.chr c)) (lit t)
  end.

Fixpoint seq (rs : list regex) : regex :=
  match rs with
  | [] => Eps
  | [r] => r
  | r :: rs' => Seq r (seq rs')
  end.

(** A matcher state: the index reached, the input that remains there
    and the captures made so far. *)
Record mstate : Type := MState {
  pos : nat;
  rest : string;
  caps : list (nat * string)
}.

Definition step (st : mstate) (t : string) : mstate :=
  MState (S (pos st)) t (caps st).

Definition capture (i : nat) (from to : mstate) : mstate :=
  MState (pos to) (rest to)
         ((i, substring 0 (pos to - pos from) (rest from)) :: caps to).

Definition cont := mstate -> option mstate.

(** [p*] from a state: as many characters as possible, then fewer. *)
Fixpoint star (p : cset) (n : nat) (s : string) (cs : list (nat * string))
         (k : cont) : option mstate :=
  match s with
  | String c t =>
      if p c then
        match star p (S n) t cs k with
        | Some r => Some r
        | None => k (MState n s cs)
        end
      else k (MState n s cs)
  | EmptyString => k (MState n s cs)
  end.

Fixpoint rmatch (r : regex) (st : mstate) (k : cont) : option mstate :=
  match r with
  | Eps => k st
  | Chr p =>
      match rest st with
      | String c t => if p c then k (step st t) else None
      | EmptyString => None
      end
  | Opt p =>
      match rest st with
      | String c t =>
          if p c then
            match k (step st t) with
            | Some r => Some r
            | None => k st
            end
          else k st
      | EmptyString => k st
      end
  | Star p => star p (pos st) (rest st) (caps st) k
  | Plus p =>
      match rest st with
      | String c t =>
          if p c then star p (S (pos st)) t (caps st) k else None
      | EmptyString => None
      end
  | Seq r1 r2 => rmatch r1 st (fun st' => rmatch r2 st' k)
  | Alt r1 r2 =>
      match rmatch r1 st k with
      | Some r => Some r
      | None => rmatch r2 st k
      end
  | Group i r' => rmatch r' st (fun st' => k (capture i st st'))
  | Bol => if pos st =? 0 then k st else None
  | Eol => match rest st with EmptyString => k st | _ => None end
  end.

(** A match: where it starts, where it ends, its captures. *)
Record found : Type := Found {
  index : nat;
  last : nat;
  groups : list (nat * string)
}.

Fixpoint group (i : nat) (gs : list (nat * string)) : string :=
  match gs with
  | [] => EmptyString
  | (j, s) :: gs' => if i =? j then s else group i gs'
  end.

(** The match of [r] that starts at index [n], where [s] remains. *)
Definition at_ (r : regex) (n : nat) (s : string) : option found :=
  match rmatch r (MState n s []) Some with
  | Some st => Some (Found n (pos st) (caps st))
  | None => None
  end.

(** The leftmost match at or after index [n]. *)
Fixpoint search (r : regex) (n : nat) (s : string) : option found :=
  match at_ r n s with
  | Some m => Some m
  | None =>
      match s with
      | String _ t => search r (S n) t
      | EmptyString => None
      end
  end.

(** [s.match(r)], [r] without the [g] flag. *)
Definition match_ (r : regex) (s : string) : option found := search r 0 s.

(** [s.replace(r, by)], [r] with the [g] flag and [by] without [$]:
    every match, left to right, replaced; after an empty match the
    next character is copied.  [skip] characters of the last match
    are still to be passed over. *)
Fixpoint replace_from (r : regex) (by_ : string) (n skip : nat) (s : string)
  : string :=
  match skip with
  | S k =>
      match s with
      | String _ t => replace_from r by_ (S n) k t
      | EmptyString => EmptyString
      end
  | 0 =>
      match at_ r n s with
      | Some m =>
          by_ ++
          match s with
          | String c t =>
              match last m - n with
              | 0 => String c (replace_from r by_ (S n) 0 t)
              | S k => replace_from r by_ (S n) k t
              end
          | EmptyString => EmptyString
          end
      | None =>
          match s with
          | String c t => String c (replace_from r by_ (S n) 0 t)
          | EmptyString => EmptyString
          end
      end
  end.

Definition replace (r : regex) (by_ : string) (s : string) : string :=
  replace_from r by_ 0 0 s.

(** [while ((m = r.exec(s)) !== null) push(m)], [r] with the [g] flag:
    the matches left to right, each search starting where the last
    match ended.  An empty match leaves [lastIndex] where it is and
    the loop never ends: [None]. *)
Fixpoint exec_from (r : regex) (n skip : nat) (s : string)
  : option (list found) :=
  match skip with
  | S k =>
      match s with
      | String _ t => exec_from r (S n) k t
      | EmptyString => Some []
      end
  | 0 =>
      match at_ r n s with
      | Some m =>
          match last m - n with
          | 0 => None
          | S k =>
              match s with
              | String _ t =>
                  option_map (cons m) (exec_from r (S n) k t)
              | EmptyString => Some [m]
              end
          end
      | None =>
          match s with
          | String _ t => exec_from r (S n) 0 t
          | EmptyString => Some []
          end
      end
  end.

Definition exec_all (r : regex) (s : string) : option (list found) :=
  exec_from r 0 0 s.

End Re.

(** ** What a call can do: return, throw, or never return *)

Inductive exn : Type :=
| TypeError                (* [new URL] on a string that is no URL *)
| URIError                 (* [decodeURIComponent] on a malformed escape *)
| Error (message : string) (* [throw new Error(message)] *).

Inductive result (A : Type) : Type :=
| Ok (a : A)
| Throw (e : exn)
| Hang.

Arguments Ok {A} a.
Arguments Throw {A} e.
Arguments Hang {A}.

Definition bind {A B : Type} (r : result A) (f : A -> result B) : result B :=
  match r with
  | Ok a => f a
  | Throw e => Throw e
  | Hang => Hang
  end.

Notation "'let*' x ':=' r 'in' k" := (bind r (fun x => k))
  (at level 10, x pattern, r at level 100, k at level 200).

(** An optional result of the platform, with the exception its absence is. *)
Definition orThrow {A : Type} (e : exn) (o : option A) : result A :=
  match o with Some a => Ok a | None => Throw e end.

(** ** The clock

    [new Date()] reads the local time; a computation that may do so is a
    function of the reading. *)

Record Date : Type := {
  getFullYear : nat;
  getMonth : nat;      (* 0 to 11 *)
  getDate : nat;
  getHours : nat;
  getMinutes : nat;
  getSeconds : nat
}.

Definition Clocked (A : Type) : Type := Date -> A.

Definition ret {A : Type} (a : A) : Clocked A := fun _ => a.

Definition now : Clocked Date := fun d => d.

Definition cbind {A B : Type} (c : Clocked A) (f : A -> Clocked B)
  : Clocked B := fun d => f (c d) d.

Definition eval {A : Type} (c : Clocked A) (clock : Date) : A := c clock.

(** ** The built-ins *)

Class Platform : Type := {
  (** IEEE 754 doubles *)
  number : Type;
  (** [parseFloat(s)] *)
  parseFloat : string -> number;
  (** [x === 0] *)
  isZero : number -> bool;
  (** [`${x}`] *)
  Number_toString : number -> string;
  (** [new URL(s)]: the parsed URL, or nothing where it throws *)
  URL : Type;
  URL_new : string -> option URL;
  (** [u.searchParams.get(name)]: the value, or nothing for [null] *)
  searchParams_get : URL -> string -> option string;
  (** [decodeURIComponent(s)], or nothing where it throws *)
  decodeURIComponent : string -> option string;
  (** [(await fetch(s, {method: "HEAD", redirect: "follow"})).url], or
      nothing where the promise is rejected *)
  fetch_url : string -> option string
}.

(** [a || b] on optional strings: [undefined] and the empty string are
    falsy. *)
Definition truthy (o : option string) : bool :=
  match o with
  | Some s => negb (Str.is_empty s)
  | None => false
  end.

Definition or_else (o : option string) (d : string) : string :=
  match o with
  | Some s => if Str.is_empty s then d else s
  | None => d
  end.


Definition quot : ascii := Eval cbv in ascii_of_nat 34.
Definition nl : string := Eval cbv in String (ascii_of_nat 10) EmptyString.
(** A text between double quotes. *)
Definition q (s : string) : string :=
  String quot s ++ String quot EmptyString.

(** ** [src/lib.ts] *)

Module Lib.
Import Re.

(** *** [slugify] *)

(** [/[^\w\s-]/g] *)
Definition re_unsafe : regex :=
  Chr (fun c => negb (Str.word c || Str.space c || Str.chr "-" c)).

(** [/[\s_-]+/g] *)
Definition re_separators : regex :=
  Plus (fun c => Str.space c || Str.chr "_" c || Str.chr "-" c).

(** [/^-+|-+$/g] *)
Definition re_edge_hyphens : regex :=
  Alt (Seq Bol (Plus (Str.chr "-"))) (Seq (Plus (Str.chr "-")) Eol).

Definition slugify (text : string) : string :=
  replace re_edge_hyphens ""
    (replace re_separators "-"
      (replace re_unsafe ""
        (Str.trim (Str.toLowerCase text)))).

(** *** [getTimestamp], [generateOutputFilename] *)

Definition pad2 (n : nat) : string := Str.padStart0 2 (Str.of_nat n).

Definition getTimestamp : Clocked string :=
  cbind now (fun d =>
    let year := getFullYear d in
    let month := pad2 (getMonth d + 1) in
    let day := pad2 (getDate d) in
    let hours := pad2 (getHours d) in
    let minutes := pad2 (getMinutes d) in
    let seconds := pad2 (getSeconds d) in
    ret (Str.of_nat year ++ month ++ day ++ "-" ++ hours ++ minutes ++ seconds)).

Definition generateOutputFilename (routeName : option string)
  : Clocked string :=
  cbind getTimestamp (fun timestamp =>
    if truthy routeName
    then ret (slugify (or_else routeName "") ++ "-" ++ timestamp ++ ".gpx")
    else ret ("route-" ++ timestamp ++ ".gpx")).

Section WithPlatform.
Context {P : Platform}.

Record Coordinate : Type := {
  lat : number;
  lng : number;
  name : option string
}.

Record RouteData : Type := {
  waypoints : list Coordinate;
  routeName : string
}.

(** *** [expandUrl] *)


(** *** [parseGoogleMapsUrl] *)

(** The decimal [D]: [-?\d+\.?\d*] *)
Definition decimal : regex :=
  seq [Opt (Str.chr "-"); Plus Str.digit; Opt (Str.chr "."); Star Str.digit].

(** [/\/maps\/dir\/([^@]+)/] *)
Definition re_dir : regex :=
  Seq (lit "/maps/dir/") (Group 1 (Plus (fun c => negb (Str.chr "@" c)))).

(** [/^(D),(D)$/] *)
Definition re_pair : regex :=
  seq [Bol; Group 1 decimal; Chr (Str.chr ","); Group 2 decimal; Eol].

(** [/\+/g] *)
Definition re_plus : regex := Chr (Str.chr "+").

(** [/\/data=([^?]+)/] *)
Definition re_data_path : regex :=
  Seq (lit "/data=") (Group 1 (Plus (fun c => negb (Str.chr "?" c)))).

(** [/!1d(D)!2d(D)/g] *)
Definition coordRegex : regex :=
  seq [lit "!1d"; Group 1 decimal; lit "!2d"; Group 2 decimal].

(** [/@(D),(D)/] *)
Definition re_place : regex :=
  seq [Chr (Str.chr "@"); Group 1 decimal; Chr (Str.chr ","); Group 2 decimal].

Definition errorMessage : string :=
  "Could not extract coordinates from the Google Maps URL. " ++
  "The URL format may not be supported or the route data is not accessible.".

(** [for (const loc of locations)]: a coordinate pair is pushed on
    [waypoints], anything else, decoded, on [locationNames]. *)
Fixpoint dirLoop (locations : list string)
         (waypoints : list Coordinate) (locationNames : list string)
  : result (list Coordinate * list string) :=
  match locations with
  | [] => Ok (waypoints, locationNames)
  | loc :: locations' =>
      match match_ re_pair loc with
      | Some coordMatch =>
          dirLoop locations'
            (waypoints ++
               [ {| lat := parseFloat (group 1 (groups coordMatch));
                    lng := parseFloat (group 2 (groups coordMatch));
                    name := None |} ])%list
            locationNames
      | None =>
          let* n := orThrow URIError
                      (decodeURIComponent (replace re_plus " " loc)) in
          dirLoop locations' waypoints (locationNames ++ [n])%list
      end
  end.

(** Lines 78 to 96: the waypoints and the location names of the path. *)
Definition dirStage (url : string)
  : result (list Coordinate * list string) :=
  match match_ re_dir url with
  | Some dirMatch =>
      let pathPart := group 1 (groups dirMatch) in
      let locations :=
        List.filter (fun s => negb (Str.is_empty (Str.trim s)))
                    (Str.split "/" pathPart) in
      dirLoop locations [] []
  | None => Ok ([], [])
  end.

(** Lines 100 to 108: the data parameter, of the query string or of the
    path. *)
Definition dataStage (urlObj : URL) (url : string) : result (option string) :=
  let dataParam := searchParams_get urlObj "data" in
  if negb (truthy dataParam) then
    match match_ re_data_path url with
    | Some dataPathMatch =>
        let* d := orThrow URIError
                    (decodeURIComponent (group 1 (groups dataPathMatch))) in
        Ok (Some d)
    | None => Ok dataParam
    end
  else Ok dataParam.

(** Lines 120 to 125: the [exec] loop. *)
Definition dataCoordsOf (dataParam : string) : result (list Coordinate) :=
  match exec_all coordRegex dataParam with
  | Some ms =>
      Ok (List.map (fun m => {| lat := parseFloat (group 2 (groups m));
                                lng := parseFloat (group 1 (groups m));
                                name := None |}) ms)
  | None => Hang
  end.

(** Lines 134 to 136. *)
Definition nameAt (locationNames : list string) (len i : nat) : string :=
  if i <? List.length locationNames then nth i locationNames ""
  else if i =? 0 then "Start"
  else if i =? len - 1 then "End"
  else "Via " ++ Str.of_nat i.

(** Lines 133 to 142: [for (let i = 0; i < dataCoords.length; i++)],
    entered at index [i] with [todo] the coordinates from [i] on. *)
Fixpoint dataLoop (locationNames : list string) (len : nat)
         (i : nat) (todo : list Coordinate) (waypoints : list Coordinate)
  : list Coordinate :=
  match todo with
  | [] => waypoints
  | c :: todo' =>
      dataLoop locationNames len (S i) todo'
        (waypoints ++
           [ {| lat := lat c; lng := lng c;
                name := Some (nameAt locationNames len i) |} ])%list
  end.

(** [w.lat !== 0 || w.lng !== 0] *)
Definition valid (w : Coordinate) : bool :=
  negb (isZero (lat w)) || negb (isZero (lng w)).

(** Lines 166 to 173. *)
Definition routeNameOf (locationNames : list string)
           (validWaypoints : list Coordinate) : string :=
  if 2 <=? List.length locationNames then
    nth 0 locationNames "" ++ " to " ++
    nth (List.length locationNames - 1) locationNames ""
  else if 2 <=? List.length validWaypoints then
    let first := or_else (match nth_error validWaypoints 0 with
                          | Some w => name w | None => None end) "Start" in
    let last := or_else (match nth_error validWaypoints
                                 (List.length validWaypoints - 1) with
                         | Some w => name w | None => None end) "End" in
    first ++ " to " ++ last
  else "Google Maps Route".

(** The waypoints of lines 69 to 154, before the filter, with the
    location names. *)
Definition candidates (url : string)
  : result (list Coordinate * list string) :=
  let* urlObj := orThrow TypeError (URL_new url) in
  let* (waypoints, locationNames) := dirStage url in
  let* dataParam := dataStage urlObj url in
  let* waypoints :=
    if truthy dataParam then
      let* dataCoords := dataCoordsOf (or_else dataParam "") in
      if 0 <? List.length dataCoords
      then Ok (dataLoop locationNames (List.length dataCoords) 0 dataCoords [])
      else Ok waypoints
    else Ok waypoints in
  let waypoints :=
    match match_ re_place url with
    | Some placeCoordMatch =>
        if List.length waypoints =? 0 then
          (waypoints ++
            [ {| lat := parseFloat (group 1 (groups placeCoordMatch));
                 lng := parseFloat (group 2 (groups placeCoordMatch));
                 name := None |} ])%list
        else waypoints
    | None => waypoints
    end in
  Ok (waypoints, locationNames).

Definition parseGoogleMapsUrl (url : string) : result RouteData :=
  let* (waypoints, locationNames) := candidates url in
  let validWaypoints := List.filter valid waypoints in
  if List.length validWaypoints =? 0 then Throw (Error errorMessage)
  else
    Ok {| waypoints := validWaypoints;
          routeName := routeNameOf locationNames validWaypoints |}.

(** *** [generateGpx] *)

Definition escapeXml (str : string) : string :=
  replace (Chr (Str.chr "'")) "&apos;"
    (replace (Chr (Str.chr quot)) "&quot;"
      (replace (Chr (Str.chr ">")) "&gt;"
        (replace (Chr (Str.chr "<")) "&lt;"
          (replace (Chr (Str.chr "&")) "&amp;" str)))).

Definition gpxHead (routeName : string) : string :=
  "<?xml version=" ++ q "1.0" ++ " encoding=" ++ q "UTF-8" ++ "?>" ++ nl ++
  "<gpx version=" ++ q "1.1" ++ " creator=" ++ q "gmaps-gpx" ++ nl ++
  "  xmlns=" ++ q "http://www.topografix.com/GPX/1/1" ++ nl ++
  "  xmlns:xsi=" ++ q "http://www.w3.org/2001/XMLSchema-instance" ++ nl ++
  "  xsi:schemaLocation=" ++
  q "http://www.topografix.com/GPX/1/1 http://www.topografix.com/GPX/1/1/gpx.xsd"
  ++ ">" ++ nl ++
  "  <trk>" ++ nl ++
  "    <name>" ++ escapeXml routeName ++ "</name>" ++ nl ++
  "    <trkseg>" ++ nl.

Definition gpxPoint (wp : Coordinate) (index : nat) : string :=
  let name := or_else (name wp) ("Waypoint " ++ Str.of_nat (index + 1)) in
  "      <trkpt lat=" ++ q (Number_toString (lat wp)) ++
  " lon=" ++ q (Number_toString (lng wp)) ++ ">" ++ nl ++
  "        <name>" ++ escapeXml name ++ "</name>" ++ nl ++
  "      </trkpt>" ++ nl.

Definition gpxTail : string :=
  "    </trkseg>" ++ nl ++
  "  </trk>" ++ nl ++
  "</gpx>" ++ nl.

(** [waypoints.forEach((wp, index) => { gpx += ... })] from [index] on. *)
Fixpoint forEachPoint (waypoints : list Coordinate) (index : nat)
         (gpx : string) : string :=
  match waypoints with
  | [] => gpx
  | wp :: waypoints' =>
      forEachPoint waypoints' (S index) (gpx ++ gpxPoint wp index)
  end.

Definition generateGpx (routeData : RouteData)
           (customRouteName : option string) : string :=
  let routeName := or_else customRouteName (routeName routeData) in
  let gpx := gpxHead routeName in
  let gpx := forEachPoint (waypoints routeData) 0 gpx in
  gpx ++ gpxTail.

(** *** [convertToGpx] *)



End WithPlatform.
End Lib.

(** ** A reference platform

    Doubles are the binary64 numbers of [SpecFloat], decimal texts
    rounded to nearest, ties to even, and printed with the fewest
    digits that read back as the same number.  The URL parser takes
    the URLs it reads as the URL Standard does and refuses the others:
    [http] and [https], a host of lower-case labels that ends in a
    letter-only label, an optional port, then printable ASCII with no
    escape above [%7F].  [decodeURIComponent] decodes what stays below
    U+0100.  There is no network. *)

Module Ref.

Local Open Scope Z_scope.

Definition prec : Z := 53.
Definition emax : Z := 1024.

(** The double nearest to [(-1)^neg * n * 10^e10]. *)
Definition of_decimal (neg : bool) (n : Z) (e10 : Z) : spec_float :=
  match n with
  | Zpos p =>
      match e10 with
      | Zneg _ =>
          SFdiv prec emax (S754_finite neg p 0)
                (S754_finite false (Z.to_pos (10 ^ (- e10))) 0)
      | _ => binary_round prec emax neg (Z.to_pos (n * 10 ^ e10)) 0
      end
  | _ => S754_zero neg
  end.

Definition digit_val (c : ascii) : Z := Z.of_nat (Str.code c) - 48.

Fixpoint digits_val (s : string) (acc : Z) : Z :=
  match s with
  | EmptyString => acc
  | String c t => digits_val t (10 * acc + digit_val c)
  end.

Definition after (pre s : string) : string :=
  match Str.strip_prefix pre s with Some t => t | None => s end.

Definition starts (pre s : string) : bool :=
  match Str.strip_prefix pre s with Some _ => true | None => false end.

(** [parse_float]: white space, a sign, then [Infinity] or the longest
    decimal literal; [NaN] when there is none. *)
Definition parse_float (s : string) : spec_float :=
  let s := Str.drop_while Str.space s in
  let neg := starts "-" s in
  let s := if neg then after "-" s else after "+" s in
  if starts "Infinity" s then S754_infinity neg else
  let int := Str.take_while Str.digit s in
  let s := Str.drop_while Str.digit s in
  let frac := if starts "." s
              then Str.take_while Str.digit (after "." s) else EmptyString in
  let s := if starts "." s
           then Str.drop_while Str.digit (after "." s) else s in
  if Str.is_empty int && Str.is_empty frac then S754_nan else
  let e :=
    if starts "e" s || starts "E" s then
      let s := after "E" (after "e" s) in
      let eneg := starts "-" s in
      let s := if eneg then after "-" s else after "+" s in
      let ds := Str.take_while Str.digit s in
      if Str.is_empty ds then 0
      else if eneg then - digits_val ds 0 else digits_val ds 0
    else 0 in
  of_decimal neg (digits_val (int ++ frac)%string 0)
             (e - Z.of_nat (String.length frac)).

Definition is_zero (x : spec_float) : bool :=
  match x with S754_zero _ => true | _ => false end.

Definition same (x y : spec_float) : bool :=
  match x, y with
  | S754_finite s m e, S754_finite s' m' e' =>
      Bool.eqb s s' && Pos.eqb m m' && Z.eqb e e'
  | _, _ => false
  end.

(** [v / 10^q] as a fraction, for [v = m * 2^e]. *)
Definition scaled (m : positive) (e q : Z) : Z * Z :=
  let num := Zpos m * 2 ^ (Z.max e 0) * 10 ^ (Z.max (- q) 0) in
  let den := 2 ^ (Z.max (- e) 0) * 10 ^ (Z.max q 0) in
  (num, den).

(** The [n] with [10^(n-1) <= v < 10^n], from a guess below it. *)
Fixpoint magnitude (fuel : nat) (m : positive) (e n : Z) : Z :=
  match fuel with
  | O => n
  | S f =>
      let '(num, den) := scaled m e n in
      if den <=? num then magnitude f m e (n + 1) else n
  end.

(** The [k]-digit decimals next to [v]: the one that reads back as
    [x], the nearer one (the even one on a tie) when both do. *)
Definition candidate (x : spec_float) (m : positive) (e n : Z) (k : Z)
  : option (Z * Z) :=
  let q := n - k in
  let '(num, den) := scaled m e q in
  let lo := num / den in
  let hi := lo + 1 in
  let ok_lo := same (of_decimal false lo q) (SFabs x) in
  let ok_hi := same (of_decimal false hi q) (SFabs x) in
  let norm s := if s =? 10 ^ k then (10 ^ (k - 1), n + 1) else (s, n) in
  match ok_lo, ok_hi with
  | true, true =>
      match Z.compare (2 * num) ((2 * lo + 1) * den) with
      | Lt => Some (norm lo)
      | Gt => Some (norm hi)
      | Eq => Some (norm (if Z.even lo then lo else hi))
      end
  | true, false => Some (norm lo)
  | false, true => Some (norm hi)
  | false, false => None
  end.

Fixpoint shortest (fuel : nat) (x : spec_float) (m : positive) (e n k : Z)
  : Z * Z :=
  match fuel with
  | O => (0, n)
  | S f =>
      match candidate x m e n k with
      | Some r => r
      | None => shortest f x m e n (k + 1)
      end
  end.

Fixpoint Z_digits (fuel : nat) (z : Z) (acc : string) : string :=
  match fuel with
  | O => acc
  | S f =>
      let acc' := String (Str.digit_of (Z.to_nat (z mod 10))) acc in
      if z <? 10 then acc' else Z_digits f (z / 10) acc'
  end.

(** A natural number in decimal. *)
Definition Z_to_string (z : Z) : string :=
  Z_digits (S (Z.to_nat (Z.log2 z))) z EmptyString.

Definition zeros (n : Z) : string := Str.repeat "0" (Z.to_nat n).

(** Number::toString of a positive finite number with digits [s] and
    decimal exponent [n]. *)
Definition format (s n : Z) : string :=
  let ds := Z_to_string s in
  let k := Z.of_nat (String.length ds) in
  if (k <=? n) && (n <=? 21) then (ds ++ zeros (n - k))%string
  else if (0 <? n) && (n <=? 21) then
    (substring 0 (Z.to_nat n) ds ++ "." ++
     substring (Z.to_nat n) (Z.to_nat (k - n)) ds)%string
  else if (-6 <? n) && (n <=? 0) then
    ("0." ++ zeros (- n) ++ ds)%string
  else
    let ex := n - 1 in
    let sign := if ex <? 0 then "-"%string else "+"%string in
    let mant := if k =? 1 then ds
                else (substring 0 1 ds ++ "." ++
                      substring 1 (Z.to_nat (k - 1)) ds)%string in
    (mant ++ "e" ++ sign ++ Z_to_string (Z.abs ex))%string.

Definition number_to_string (x : spec_float) : string :=
  match x with
  | S754_nan => "NaN"%string
  | S754_zero _ => "0"%string
  | S754_infinity s => if s then "-Infinity"%string else "Infinity"%string
  | S754_finite s m e =>
      let bits := Zpos (digits2_pos m) + e in
      let n := magnitude 6 m e ((bits - 1) * 30103 / 100000 - 1) in
      let '(d, n') := shortest 17 x m e n 1 in
      ((if s then "-" else "") ++ format d n')%string
  end.

Local Close Scope Z_scope.

(** *** URLs *)

Definition hex_val (c : ascii) : option nat :=
  if Str.digit c then Some (Str.code c - 48)
  else if Str.between 97 102 c then Some (Str.code c - 87)
  else if Str.between 65 70 c then Some (Str.code c - 55)
  else None.

(** The byte of an escape [%XY] at the head of [s], and what follows. *)
Definition escape (s : string) : option (nat * string) :=
  match s with
  | String "%" (String x (String y t)) =>
      match hex_val x, hex_val y with
      | Some a, Some b => Some (16 * a + b, t)
      | _, _ => None
      end
  | _ => None
  end.

(** Is there an escape above [%7F]? *)
Fixpoint high_escape (s : string) : bool :=
  match s with
  | EmptyString => false
  | String c t =>
      match escape s with
      | Some (b, _) => (128 <=? b) || high_escape t
      | None => high_escape t
      end
  end.

Definition lower_alpha (c : ascii) : bool := Str.between 97 122 c.

Definition label_char (c : ascii) : bool :=
  lower_alpha c || Str.digit c || Str.chr "-" c.

Definition good_label (l : string) : bool :=
  negb (Str.is_empty l) && Str.forallb label_char l &&
  negb (match Str.strip_prefix "xn--" l with Some _ => true | None => false end).

Definition good_host (h : string) : bool :=
  let labels := Str.split "." h in
  List.forallb good_label labels &&
  Str.forallb lower_alpha (List.last labels EmptyString).

Definition good_port (p : string) : bool :=
  Str.forallb Str.digit p && (String.length p <=? 5) &&
  (digits_val p 0 <=? 65535)%Z.

Definition printable (c : ascii) : bool := Str.between 32 126 c.

Record url : Type := { query : string }.

Definition host_end (c : ascii) : bool :=
  Str.chr "/" c || Str.chr "?" c || Str.chr "#" c.

Definition url_new (s : string) : option url :=
  let after_scheme :=
    match Str.strip_prefix "https://" s with
    | Some t => Some t
    | None => Str.strip_prefix "http://" s
    end in
  match after_scheme with
  | None => None
  | Some t =>
      let authority := Str.take_while (fun c => negb (host_end c)) t in
      let tail := Str.drop_while (fun c => negb (host_end c)) t in
      let host := Str.take_while (fun c => negb (Str.chr ":" c)) authority in
      let port := Str.drop_while (fun c => negb (Str.chr ":" c)) authority in
      let port_ok :=
        match port with
        | EmptyString => true
        | String _ p => negb (Str.is_empty p) && good_port p
        end in
      if good_host host && port_ok &&
         Str.forallb printable s && negb (high_escape s) &&
         negb (Str.is_empty (Str.trim s)) &&
         (String.eqb (Str.trim s) s)
      then
        let no_fragment :=
          Str.take_while (fun c => negb (Str.chr "#" c)) tail in
        let query :=
          match Str.drop_while (fun c => negb (Str.chr "?" c)) no_fragment with
          | String _ qs => qs
          | EmptyString => EmptyString
          end in
        Some {| query := query |}
      else None
  end.

(** Percent-decoding of a form field: a malformed escape is kept.
    [skip] characters of the last escape are still to be passed. *)
Fixpoint percent_decode_from (skip : nat) (s : string) : string :=
  match s with
  | EmptyString => EmptyString
  | String c t =>
      match skip with
      | S k => percent_decode_from k t
      | 0 =>
          match escape s with
          | Some (b, _) => String (ascii_of_nat b) (percent_decode_from 2 t)
          | None => String c (percent_decode_from 0 t)
          end
      end
  end.

Definition percent_decode (s : string) : string := percent_decode_from 0 s.

Definition form_decode (s : string) : string :=
  percent_decode (Str.map (fun c => if Str.chr "+" c then " "%char else c) s).

Definition field (piece : string) : string * string :=
  let name := Str.take_while (fun c => negb (Str.chr "=" c)) piece in
  let value :=
    match Str.drop_while (fun c => negb (Str.chr "=" c)) piece with
    | String _ v => v
    | EmptyString => EmptyString
    end in
  (form_decode name, form_decode value).

Fixpoint lookup (name : string) (fields : list (string * string))
  : option string :=
  match fields with
  | [] => None
  | (n, v) :: fields' =>
      if String.eqb n name then Some v else lookup name fields'
  end.

Definition search_params_get (u : url) (name : string) : option string :=
  lookup name
    (List.map field
       (List.filter (fun p => negb (Str.is_empty p))
                    (Str.split "&" (query u)))).

(** [decode_uri_component]: every [%] starts an escape, and the bytes
    are UTF-8; of these, one byte, or two for U+0080 to U+00FF. *)
Fixpoint decode_from (skip : nat) (s : string) : option string :=
  match s with
  | EmptyString => Some EmptyString
  | String c t =>
      match skip with
      | S k => decode_from k t
      | 0 =>
          if Str.chr "%" c then
            match escape s with
            | Some (b, s') =>
                if b <? 128 then
                  option_map (String (ascii_of_nat b)) (decode_from 2 t)
                else if (b =? 194) || (b =? 195) then
                  match escape s' with
                  | Some (b', _) =>
                      if (128 <=? b') && (b' <=? 191) then
                        option_map
                          (String (ascii_of_nat ((b - 192) * 64 + (b' - 128))))
                          (decode_from 5 t)
                      else None
                  | None => None
                  end
                else None
            | None => None
            end
          else option_map (String c) (decode_from 0 t)
      end
  end.

Definition decode_uri_component (s : string) : option string :=
  decode_from 0 s.

#[export] Instance platform : Platform := {|
  number := spec_float;
  parseFloat := parse_float;
  isZero := is_zero;
  Number_toString := number_to_string;
  URL := url;
  URL_new := url_new;
  searchParams_get := search_params_get;
  decodeURIComponent := decode_uri_component;
  fetch_url := fun _ => None
|}.

End Ref.

(** ** What the patterns mean

    The texts a pattern matches, without the order in which the matcher
    tries them: [Matches r st st'] when [r] can take the matcher from
    [st] to [st']. *)

Module ReSem.
Import Re.

Inductive Matches : regex -> mstate -> mstate -> Prop :=
| MEps : forall st, Matches Eps st st
| MChr : forall p c t st,
    rest st = String c t -> p c = true -> Matches (Chr p) st (step st t)
| MOptNo : forall p st, Matches (Opt p) st st
| MOptYes : forall p c t st,
    rest st = String c t -> p c = true -> Matches (Opt p) st (step st t)
| MStarNo : forall p st, Matches (Star p) st st
| MStarYes : forall p c t st st',
    rest st = String c t -> p c = true ->
    Matches (Star p) (step st t) st' -> Matches (Star p) st st'
| MPlus : forall p c t st st',
    rest st = String c t -> p c = true ->
    Matches (Star p) (step st t) st' -> Matches (Plus p) st st'
| MSeq : forall r1 r2 st st1 st2,
    Matches r1 st st1 -> Matches r2 st1 st2 -> Matches (Seq r1 r2) st st2
| MAltL : forall r1 r2 st st', Matches r1 st st' -> Matches (Alt r1 r2) st st'
| MAltR : forall r1 r2 st st', Matches r2 st st' -> Matches (Alt r1 r2) st st'
| MGroup : forall i r st st',
    Matches r st st' -> Matches (Group i r) st (capture i st st')
| MBol : forall st, pos st = 0 -> Matches Bol st st
| MEol : forall st, rest st = EmptyString -> Matches Eol st st.

(** Does every match of the pattern take at least one character? *)
Fixpoint consuming (r : regex) : bool :=
  match r with
  | Chr _ | Plus _ => true
  | Seq r1 r2 => consuming r1 || consuming r2
  | Alt r1 r2 => consuming r1 && consuming r2
  | Group _ r' => consuming r'
  | _ => false
  end.

End ReSem.

(** ** The specification's words *)

Module Spec.

(** *** The slug *)

Definition kept (c : ascii) : bool :=
  Str.word c || Str.space c || Str.chr "-" c.

Definition separator (c : ascii) : bool :=
  Str.space c || Str.chr "_" c || Str.chr "-" c.

(** Every run of characters in [p] replaced by one hyphen; [in_run]
    when the character before was in [p]. *)
Fixpoint collapse (p : ascii -> bool) (in_run : bool) (s : string) : string :=
  match s with
  | EmptyString => EmptyString
  | String c t =>
      if p c then
        if in_run then collapse p true t else String "-" (collapse p true t)
      else String c (collapse p false t)
  end.

Definition hyphen : ascii -> bool := Str.chr "-".

(** Lowercase, trim, strip what is no word character, white space or
    hyphen, collapse the runs of separators, trim the hyphens. *)
Definition slug (text : string) : string :=
  let s := Str.trim (Str.toLowerCase text) in
  let s := Str.filter kept s in
  let s := collapse separator false s in
  Str.drop_while_end hyphen (Str.drop_while hyphen s).

(** *** Escaping *)

(** The entity of a reserved character; any other character itself. *)
Definition xml_entity (c : ascii) : string :=
  if Str.chr "&" c then "&amp;"
  else if Str.chr "<" c then "&lt;"
  else if Str.chr ">" c then "&gt;"
  else if Str.chr quot c then "&quot;"
  else if Str.chr "'" c then "&apos;"
  else String c EmptyString.

Definition escaped (s : string) : string := Str.subst xml_entity s.

(** *** The path of a directions URL *)

(** What follows the first [marker] that has a character in [p] after
    it, as far as the characters are in [p]. *)
Fixpoint after_marker (marker : string) (p : ascii -> bool) (s : string)
  : option string :=
  let here :=
    match Str.strip_prefix marker s with
    | Some t =>
        if Str.is_empty (Str.take_while p t) then None
        else Some (Str.take_while p t)
    | None => None
    end in
  match here with
  | Some body => Some body
  | None =>
      match s with
      | String _ t => after_marker marker p t
      | EmptyString => None
      end
  end.

Definition not_at (c : ascii) : bool := negb (Str.chr "@" c).
Definition not_question (c : ascii) : bool := negb (Str.chr "?" c).
Definition not_comma (c : ascii) : bool := negb (Str.chr "," c).

(** A signed decimal: an optional minus sign, one digit or more, and
    optionally a point and digits. *)
Definition unsigned_decimal (s : string) : bool :=
  negb (Str.is_empty (Str.take_while Str.digit s)) &&
  match Str.drop_while Str.digit s with
  | EmptyString => true
  | String c f => Str.chr "." c && Str.forallb Str.digit f
  end.

Definition is_decimal (s : string) : bool :=
  match s with
  | String c t => if Str.chr "-" c then unsigned_decimal t else unsigned_decimal s
  | EmptyString => false
  end.

(** The number at the head of a text: an optional minus sign, the
    digits that follow, as many as there are, and then, when a point
    follows them, the point and the digits after it; with what remains
    of the text. *)
Definition unsigned_at (s : string) : option (string * string) :=
  let digits := Str.take_while Str.digit s in
  if Str.is_empty digits then None
  else
    match Str.drop_while Str.digit s with
    | String c r =>
        if Str.chr "." c
        then Some (digits ++ String c (Str.take_while Str.digit r),
                   Str.drop_while Str.digit r)
        else Some (digits, String c r)
    | EmptyString => Some (digits, EmptyString)
    end.

Definition number_at (s : string) : option (string * string) :=
  match s with
  | String c t =>
      if Str.chr "-" c then
        match unsigned_at t with
        | Some (w, r) => Some (String c w, r)
        | None => None
        end
      else unsigned_at s
  | EmptyString => None
  end.

(** ["<lat>,<lng>"], both signed decimals. *)
Definition pair_of (segment : string) : option (string * string) :=
  let a := Str.take_while not_comma segment in
  match Str.drop_while not_comma segment with
  | String _ b => if is_decimal a && is_decimal b then Some (a, b) else None
  | EmptyString => None
  end.

Definition is_pair (segment : string) : bool :=
  match pair_of segment with Some _ => true | None => false end.

Definition plus_to_space (s : string) : string :=
  Str.map (fun c => if Str.chr "+" c then " "%char else c) s.

Definition blank (s : string) : bool := Str.is_empty (Str.trim s).

(** The segments Strategy 1 looks at: what stands between the slashes
    after the directions marker, up to the next "@" (or to the end of
    the URL), but for the segments that are empty or white space. *)
Definition path_segments (url : string) : list string :=
  match after_marker "/maps/dir/" not_at url with
  | Some body => List.filter (fun s => negb (blank s)) (Str.split "/" body)
  | None => []
  end.

(** The same with the segments that are not empty, as the claim has it. *)
Definition path_segments_nonempty (url : string) : list string :=
  match after_marker "/maps/dir/" not_at url with
  | Some body =>
      List.filter (fun s => negb (Str.is_empty s)) (Str.split "/" body)
  | None => []
  end.

Fixpoint all_some {A : Type} (l : list (option A)) : option (list A) :=
  match l with
  | [] => Some []
  | Some a :: l' => option_map (cons a) (all_some l')
  | None :: _ => None
  end.

Section WithPlatform.
Context {P : Platform}.
Import Lib.

Definition unnamed (ab : string * string) : Coordinate :=
  {| lat := parseFloat (fst ab); lng := parseFloat (snd ab); name := None |}.

(** The waypoints and the location names of a list of segments. *)
Definition strategy1 (segments : list string)
  : result (list Coordinate * list string) :=
  let pairs := List.flat_map (fun s => match pair_of s with
                                       | Some ab => [unnamed ab]
                                       | None => []
                                       end) segments in
  let others := List.filter (fun s => negb (is_pair s)) segments in
  match all_some (List.map (fun s => decodeURIComponent (plus_to_space s))
                           others) with
  | Some names => Ok (pairs, names)
  | None => Throw URIError
  end.

(** *** The data parameter *)

(** The query parameter [data] when it is there and not empty, else
    what follows "/data=" in the URL, up to the next "?", decoded. *)
Definition data_parameter (u : URL) (url : string) : result (option string) :=
  match searchParams_get u "data" with
  | Some (String c d) => Ok (Some (String c d))
  | other =>
      match after_marker "/data=" not_question url with
      | Some enc =>
          match decodeURIComponent enc with
          | Some d => Ok (Some d)
          | None => Throw URIError
          end
      | None => Ok other
      end
  end.

(** The coordinate of a pair of the stream: latitude from the second
    number, longitude from the first. *)
Definition coord_of (m : Re.found) : Coordinate :=
  {| lat := parseFloat (Re.group 2 (Re.groups m));
     lng := parseFloat (Re.group 1 (Re.groups m));
     name := None |}.

(** The waypoint of the [i]-th pair of the stream, named by position. *)
Definition stream_name (names : list string) (len i : nat) : string :=
  match nth_error names i with
  | Some n => n
  | None =>
      if i =? 0 then "Start"
      else if i =? len - 1 then "End"
      else "Via " ++ Str.of_nat i
  end.

Fixpoint stream_from (names : list string) (len i : nat)
         (ms : list Re.found) : list Coordinate :=
  match ms with
  | [] => []
  | m :: ms' =>
      {| lat := lat (coord_of m); lng := lng (coord_of m);
         name := Some (stream_name names len i) |}
      :: stream_from names len (S i) ms'
  end.

Definition stream_waypoints (names : list string) (ms : list Re.found)
  : list Coordinate :=
  stream_from names (List.length ms) 0 ms.

Definition origin (w : Coordinate) : bool :=
  isZero (lat w) && isZero (lng w).

(** *** The route name *)

Definition first_name (ws : list Coordinate) : option string :=
  match ws with
  | w :: _ => name w
  | [] => None
  end.

Definition last_name (ws : list Coordinate) : option string :=
  match List.rev ws with
  | w :: _ => name w
  | [] => None
  end.

Definition route_name (names : list string) (ws : list Coordinate) : string :=
  match names with
  | n0 :: _ :: _ => n0 ++ " to " ++ List.last names ""
  | _ =>
      match ws with
      | _ :: _ :: _ =>
          or_else (first_name ws) "Start" ++ " to " ++
          or_else (last_name ws) "End"
      | _ => "Google Maps Route"
      end
  end.

(** *** The extraction *)



(** *** The document *)

(** The text before the name of the track, between it and the first
    point, and after the last point. *)
Definition doc_open : string :=
  "<?xml version=" ++ q "1.0" ++ " encoding=" ++ q "UTF-8" ++ "?>" ++ nl ++
  "<gpx version=" ++ q "1.1" ++ " creator=" ++ q "gmaps-gpx" ++ nl ++
  "  xmlns=" ++ q "http://www.topografix.com/GPX/1/1" ++ nl ++
  "  xmlns:xsi=" ++ q "http://www.w3.org/2001/XMLSchema-instance" ++ nl ++
  "  xsi:schemaLocation=" ++
  q "http://www.topografix.com/GPX/1/1 http://www.topografix.com/GPX/1/1/gpx.xsd"
  ++ ">" ++ nl ++
  "  <trk>" ++ nl ++
  "    <name>".

Definition doc_mid : string :=
  "</name>" ++ nl ++
  "    <trkseg>" ++ nl.

Definition doc_close : string :=
  "    </trkseg>" ++ nl ++
  "  </trk>" ++ nl ++
  "</gpx>" ++ nl.

(** The text of a point before its latitude, between latitude and
    longitude, between longitude and name, and after the name. *)
Definition pt_open : string := "      <trkpt lat=" ++ String quot "".
Definition pt_lon : string := String quot " lon=" ++ String quot "".
Definition pt_name : string :=
  String quot ">" ++ nl ++ "        <name>".
Definition pt_close : string :=
  "</name>" ++ nl ++
  "      </trkpt>" ++ nl.

Definition point_text (p : string * string * string) : string :=
  let '(lat, lon, name) := p in
  pt_open ++ lat ++ pt_lon ++ lon ++ pt_name ++ name ++ pt_close.

(** The document of a track with its name and its points, all three
    already texts: one [gpx] with one [trk], named, with one [trkseg]
    of one [trkpt] a point, in order. *)
Definition document (name : string) (points : list (string * string * string))
  : string :=
  doc_open ++ name ++ doc_mid ++
  String.concat "" (List.map point_text points) ++
  doc_close.

(** The waypoints with their 1-based indices, from [i] on. *)
Fixpoint numbered (i : nat) (ws : list Coordinate) : list (nat * Coordinate) :=
  match ws with
  | [] => []
  | w :: ws' => (i, w) :: numbered (S i) ws'
  end.

(** The name a point is written with. *)
Definition point_name (iw : nat * Coordinate) : string :=
  or_else (name (snd iw)) ("Waypoint " ++ Str.of_nat (fst iw)).

(** The same where only a waypoint without a name gets the label, as
    the claim has it. *)
Definition point_name_claimed (iw : nat * Coordinate) : string :=
  match name (snd iw) with
  | Some n => n
  | None => "Waypoint " ++ Str.of_nat (fst iw)
  end.

Definition track_name_claimed (r : RouteData) (override : option string)
  : string :=
  match override with
  | Some n => n
  | None => routeName r
  end.

(** What is written of a waypoint: its coordinates as the platform
    prints them, and its name, escaped. *)
Definition written (iw : nat * Coordinate) : string * string * string :=
  (Number_toString (lat (snd iw)), Number_toString (lng (snd iw)),
   escaped (point_name iw)).

Definition written_claimed (iw : nat * Coordinate) : string * string * string :=
  (Number_toString (lat (snd iw)), Number_toString (lng (snd iw)),
   escaped (point_name_claimed iw)).

(** What a reader gets back of a waypoint. *)
Definition read_back (iw : nat * Coordinate) : string * string * string :=
  (Number_toString (lat (snd iw)), Number_toString (lng (snd iw)),
   point_name iw).

(** The points read are the waypoints, as the claim has it: their
    coordinates and their names. *)
Definition same_points (points : list (string * string * string))
           (ws : list Coordinate) : Prop :=
  List.map (fun p => (parseFloat (fst (fst p)), parseFloat (snd (fst p)),
                      Some (snd p))) points =
  List.map (fun w => (lat w, lng w, name w)) ws.

(** The same with the names that are written. *)
Definition same_points_written (points : list (string * string * string))
           (ws : list Coordinate) : Prop :=
  List.map (fun p => (parseFloat (fst (fst p)), parseFloat (snd (fst p)),
                      snd p)) points =
  List.map (fun iw => (lat (snd iw), lng (snd iw), point_name iw))
           (numbered 1 ws).

(** The coordinates of a waypoint read back as themselves. *)
Definition reads_back (w : Coordinate) : Prop :=
  parseFloat (Number_toString (lat w)) = lat w /\
  parseFloat (Number_toString (lng w)) = lng w.

End WithPlatform.
End Spec.

(** ** An XML reader

    A reader of the part of XML 1.0, with namespaces, that the
    documents of [generateGpx] are written in.  It takes a document
    that is well formed and refuses any other: line ends are normalised
    first; the declaration, if there is one, stands at the very start;
    then come white space, one root element and white space.  Tags are
    start tags and end tags that match, with names of ASCII letters,
    digits, ".", "-" and "_"; attributes stand between double quotes,
    no name twice in a tag, no "<" or "&" in a value, white space in a
    value read as a space; a prefix of an attribute is declared in its
    tag; character data holds the five predefined entities and no
    "]]>".  What the documents never use is refused as well: comments,
    processing instructions, sections, a document type, empty-element
    tags, character references, prefixes on elements, values between
    single quotes, and any declaration but that of version 1.0 in
    UTF-8. *)

Module Xml.

Inductive event : Type :=
| STag (name : string) (attrs : list (string * string))
| ETag (name : string)
| Chars (text : string).

(** Characters read so far, the last one first. *)
Definition acc := list ascii.

Definition text_of (a : acc) : string := string_of_list_ascii (List.rev a).

Inductive mode : Type :=
| Content (text : acc)
| Reference (text : acc) (entity : acc)
| Markup
| StartName (name : acc)
| InTag (name : string) (attrs : list (string * string))
| AttrName (name : string) (attrs : list (string * string)) (attr : acc)
| AttrQuote (name : string) (attrs : list (string * string)) (attr : string)
| AttrValue (name : string) (attrs : list (string * string)) (attr : string)
            (value : acc)
| AfterValue (name : string) (attrs : list (string * string))
| EndName (name : acc)
| Bad.

Record lexer : Type := Lexer {
  lmode : mode;
  events : list event   (* the last one first *)
}.

Definition cr : ascii := Eval cbv in ascii_of_nat 13.
Definition lf : ascii := Eval cbv in ascii_of_nat 10.
Definition tab : ascii := Eval cbv in ascii_of_nat 9.

(** Char of XML 1.0, below U+0100. *)
Definition xml_char (c : ascii) : bool :=
  Str.chr tab c || Str.chr lf c || Str.chr cr c || (32 <=? Str.code c).

Definition white (c : ascii) : bool :=
  Str.chr " " c || Str.chr tab c || Str.chr lf c || Str.chr cr c.

Definition no_cr (c : ascii) : bool := negb (Str.chr cr c).

(** A character of a name that is read back as it is. *)
Definition plain (c : ascii) : bool := xml_char c && negb (Str.chr cr c).

(** A character of an attribute value that is read back as it is. *)
Definition attr_plain (c : ascii) : bool :=
  xml_char c && negb (white c) && negb (Str.chr quot c) &&
  negb (Str.chr "<" c) && negb (Str.chr "&" c).

(** The characters of a name without a colon, of those of ASCII. *)
Definition name_start (c : ascii) : bool :=
  Str.between 65 90 c || Str.between 97 122 c || Str.chr "_" c.

Definition name_char (c : ascii) : bool :=
  name_start c || Str.digit c || Str.chr "-" c || Str.chr "." c.

Definition ncname (n : string) : bool :=
  match n with
  | String c t => name_start c && Str.forallb name_char t
  | EmptyString => false
  end.

(** The prefix and the local part of a name with one colon. *)
Definition prefixed (n : string) : option (string * string) :=
  match Str.split ":" n with
  | [p; l] => Some (p, l)
  | _ => None
  end.

(** A name of an attribute: a name without a colon, or two of them
    with a colon between. *)
Definition qname (n : string) : bool :=
  match prefixed n with
  | Some (p, l) => ncname p && ncname l
  | None => ncname n
  end.

Fixpoint attr (name : string) (attrs : list (string * string))
  : option string :=
  match attrs with
  | [] => None
  | (n, v) :: attrs' => if String.eqb n name then Some v else attr name attrs'
  end.

Definition has (name : string) (attrs : list (string * string)) : bool :=
  match attr name attrs with Some _ => true | None => false end.

(** *** Namespaces *)

(** The two names no declaration may give. *)
Definition reserved (uri : string) : bool :=
  String.eqb uri "http://www.w3.org/XML/1998/namespace" ||
  String.eqb uri "http://www.w3.org/2000/xmlns/".

(** A name that starts with "xml", in any case. *)
Definition starts_xml (n : string) : bool :=
  match n with
  | String a (String b (String c _)) =>
      String.eqb
        (Str.toLowerCase (String a (String b (String c EmptyString)))) "xml"
  | _ => false
  end.

(** An attribute of a tag with the attributes [attrs]: a declaration
    gives a name that is not reserved, to a prefix that does not start
    with "xml"; the prefix of any other attribute is declared in the
    tag. *)
Definition bound (attrs : list (string * string)) (a : string * string)
  : bool :=
  match prefixed (fst a) with
  | None =>
      if String.eqb (fst a) "xmlns" then negb (reserved (snd a)) else true
  | Some (p, l) =>
      if String.eqb p "xmlns" then
        negb (starts_xml l) && negb (Str.is_empty (snd a)) &&
        negb (reserved (snd a))
      else negb (starts_xml p) && has ("xmlns:" ++ p) attrs
  end.

(** The namespace name and the local part of an attribute with a
    prefix. *)
Definition expanded (attrs : list (string * string)) (a : string * string)
  : list (string * string) :=
  match prefixed (fst a) with
  | Some (p, l) =>
      if String.eqb p "xmlns" then []
      else match attr ("xmlns:" ++ p) attrs with
           | Some uri => [(uri, l)]
           | None => []
           end
  | None => []
  end.

Fixpoint distinct (l : list (string * string)) : bool :=
  match l with
  | [] => true
  | x :: l' =>
      negb (List.existsb
              (fun y => String.eqb (fst x) (fst y) && String.eqb (snd x) (snd y))
              l') &&
      distinct l'
  end.

Definition namespaces (attrs : list (string * string)) : bool :=
  List.forallb (bound attrs) attrs &&
  distinct (List.flat_map (expanded attrs) attrs).

(** The start tag [name] with the attributes [attrs], the last one
    first, is complete. *)
Definition start_tag (name : string) (attrs : list (string * string))
           (evs : list event) : lexer :=
  if namespaces (List.rev attrs)
  then Lexer (Content []) (STag name (List.rev attrs) :: evs)
  else Lexer Bad evs.

(** "]]" before a ">" in character data *)
Definition section_end (text : acc) : bool :=
  match text with
  | a :: b :: _ => Str.chr "]" a && Str.chr "]" b
  | _ => false
  end.

Definition entity_char (name : string) : option ascii :=
  if String.eqb name "amp" then Some "&"%char
  else if String.eqb name "lt" then Some "<"%char
  else if String.eqb name "gt" then Some ">"%char
  else if String.eqb name "quot" then Some quot
  else if String.eqb name "apos" then Some "'"%char
  else None.

Definition next (m : mode) (evs : list event) (c : ascii) : lexer :=
  if negb (xml_char c) then Lexer Bad evs else
  match m with
  | Content text =>
      if Str.chr "<" c then Lexer Markup (Chars (text_of text) :: evs)
      else if Str.chr "&" c then Lexer (Reference text []) evs
      else if Str.chr ">" c && section_end text then Lexer Bad evs
      else Lexer (Content (c :: text)) evs
  | Reference text entity =>
      if Str.chr ";" c then
        match entity_char (text_of entity) with
        | Some e => Lexer (Content (e :: text)) evs
        | None => Lexer Bad evs
        end
      else if name_char c then Lexer (Reference text (c :: entity)) evs
      else Lexer Bad evs
  | Markup =>
      if Str.chr "/" c then Lexer (EndName []) evs
      else if name_start c then Lexer (StartName [c]) evs
      else Lexer Bad evs
  | StartName name =>
      if name_char c then Lexer (StartName (c :: name)) evs
      else if white c then Lexer (InTag (text_of name) []) evs
      else if Str.chr ">" c then start_tag (text_of name) [] evs
      else Lexer Bad evs
  | InTag name attrs =>
      if white c then Lexer (InTag name attrs) evs
      else if Str.chr ">" c then start_tag name attrs evs
      else if name_start c then Lexer (AttrName name attrs [c]) evs
      else Lexer Bad evs
  | AttrName name attrs attr =>
      if name_char c || Str.chr ":" c
      then Lexer (AttrName name attrs (c :: attr)) evs
      else if Str.chr "=" c then
        if qname (text_of attr) && negb (has (text_of attr) attrs)
        then Lexer (AttrQuote name attrs (text_of attr)) evs
        else Lexer Bad evs
      else Lexer Bad evs
  | AttrQuote name attrs attr =>
      if Str.chr quot c then Lexer (AttrValue name attrs attr []) evs
      else Lexer Bad evs
  | AttrValue name attrs attr value =>
      if Str.chr quot c
      then Lexer (AfterValue name ((attr, text_of value) :: attrs)) evs
      else if Str.chr "<" c || Str.chr "&" c then Lexer Bad evs
      else if white c then Lexer (AttrValue name attrs attr (" "%char :: value)) evs
      else Lexer (AttrValue name attrs attr (c :: value)) evs
  | AfterValue name attrs =>
      if white c then Lexer (InTag name attrs) evs
      else if Str.chr ">" c then start_tag name attrs evs
      else Lexer Bad evs
  | EndName name =>
      match name with
      | [] =>
          if name_start c then Lexer (EndName [c]) evs else Lexer Bad evs
      | _ :: _ =>
          if name_char c then Lexer (EndName (c :: name)) evs
          else if Str.chr ">" c
          then Lexer (Content []) (ETag (text_of name) :: evs)
          else Lexer Bad evs
      end
  | Bad => Lexer Bad evs
  end.

Fixpoint run (s : string) (l : lexer) : lexer :=
  match s with
  | EmptyString => l
  | String c t => run t (next (lmode l) (events l) c)
  end.

(** CR LF, and CR alone, read as LF. *)
Fixpoint normalize_eol (s : string) : string :=
  match s with
  | EmptyString => EmptyString
  | String c t =>
      if Str.chr cr c then
        match t with
        | String c' t' =>
            if Str.chr lf c' then String lf (normalize_eol t')
            else String lf (normalize_eol t)
        | EmptyString => String lf EmptyString
        end
      else String c (normalize_eol t)
  end.

(** The declaration a document may start with. *)
Definition declaration : string :=
  "<?xml version=" ++ q "1.0" ++ " encoding=" ++ q "UTF-8" ++ "?>".

(** The tags and the character data of a text, in order, the character
    data before the first tag and after the last one included. *)
Definition tokens (doc : string) : option (list event) :=
  let text := normalize_eol doc in
  let body :=
    match Str.strip_prefix declaration text with
    | Some after => after
    | None => text
    end in
  let l := run body (Lexer (Content []) []) in
  match lmode l with
  | Content last => Some (List.rev (Chars (text_of last) :: events l))
  | _ => None
  end.

(** One root element, every start tag closed by the end tag of its
    name, and white space alone outside the root.  [inside] are the
    open elements, the innermost first; [rooted] when the root has been
    opened. *)
Fixpoint nested (es : list event) (inside : list string) (rooted : bool)
  : bool :=
  match es with
  | [] =>
      match inside with
      | [] => rooted
      | _ :: _ => false
      end
  | STag n _ :: es' =>
      match inside with
      | [] => negb rooted && nested es' [n] true
      | _ :: _ => nested es' (n :: inside) true
      end
  | ETag n :: es' =>
      match inside with
      | top :: below => String.eqb top n && nested es' below rooted
      | [] => false
      end
  | Chars t :: es' =>
      match inside with
      | [] => Str.forallb white t && nested es' inside rooted
      | _ :: _ => nested es' inside rooted
      end
  end.

(** The tags and the character data of a well-formed document. *)
Definition lex (doc : string) : option (list event) :=
  match tokens doc with
  | Some es => if nested es [] false then Some es else None
  | None => None
  end.

(** *** The track of a document *)

Definition point : Type := string * string * string.

Record reader : Type := Reader {
  stack : list string;                (* the open elements, innermost first *)
  coords : option (string * string);  (* [lat] and [lon] of the open point *)
  point_name : string;
  track_name : string;
  points : list point                 (* the last one first *)
}.

Fixpoint same (a b : list string) : bool :=
  match a, b with
  | [], [] => true
  | x :: a', y :: b' => String.eqb x y && same a' b'
  | _, _ => false
  end.

(** The elements around the points of a track. *)
Definition segment : list string := ["trkseg"; "trk"; "gpx"].

(** The root is [gpx]; a point is a [trkpt] of a [trkseg] of a [trk],
    with [lat] and [lon]; a name is the text of a [name], which has no
    elements of its own, of a point or of a track. *)
Definition see (r : reader) (e : event) : option reader :=
  match e with
  | STag n attrs =>
      match stack r with
      | [] =>
          if String.eqb n "gpx"
          then Some (Reader [n] (coords r) (point_name r)
                            (track_name r) (points r))
          else None
      | top :: _ =>
          if String.eqb top "name" then None
          else if String.eqb n "trkpt" && same (stack r) segment then
            match attr "lat" attrs, attr "lon" attrs with
            | Some la, Some lo =>
                Some (Reader (n :: stack r) (Some (la, lo)) EmptyString
                             (track_name r) (points r))
            | _, _ => None
            end
          else Some (Reader (n :: stack r) (coords r) (point_name r)
                            (track_name r) (points r))
      end
  | Chars t =>
      if same (stack r) ("name" :: "trkpt" :: segment) then
        Some (Reader (stack r) (coords r) t (track_name r) (points r))
      else if same (stack r) ["name"; "trk"; "gpx"] then
        Some (Reader (stack r) (coords r) (point_name r) t (points r))
      else Some r
  | ETag n =>
      match stack r with
      | _ :: below =>
          if String.eqb n "trkpt" && same below segment then
            match coords r with
            | Some (la, lo) =>
                Some (Reader below None EmptyString (track_name r)
                             ((la, lo, point_name r) :: points r))
            | None => None
            end
          else Some (Reader below (coords r) (point_name r)
                            (track_name r) (points r))
      | [] => None
      end
  end.

Fixpoint see_all (es : list event) (r : reader) : option reader :=
  match es with
  | [] => Some r
  | e :: es' =>
      match see r e with
      | Some r' => see_all es' r'
      | None => None
      end
  end.

(** The name of the track and its points, in the order of the
    document, of a well-formed document whose root is [gpx]. *)
Definition read_gpx (doc : string) : option (string * list point) :=
  match lex doc with
  | Some es =>
      match see_all es (Reader [] None EmptyString EmptyString []) with
      | Some r => Some (track_name r, List.rev (points r))
      | None => None
      end
  | None => None
  end.

End Xml.

(** *** The events of a document *)

Module Events.
Import Xml.

Definition gpx_attrs : list (string * string) :=
  [ ("version", "1.1"); ("creator", "gmaps-gpx");
    ("xmlns", "http://www.topografix.com/GPX/1/1");
    ("xmlns:xsi", "http://www.w3.org/2001/XMLSchema-instance");
    ("xsi:schemaLocation",
     "http://www.topografix.com/GPX/1/1 http://www.topografix.com/GPX/1/1/gpx.xsd") ].

Definition open_events (name : string) : list event :=
  [ Chars nl; STag "gpx" gpx_attrs;
    Chars (nl ++ "  "); STag "trk" [];
    Chars (nl ++ "    "); STag "name" []; Chars name; ETag "name";
    Chars (nl ++ "    "); STag "trkseg" [] ].

Definition point_events (p : point) : list event :=
  [ Chars (nl ++ "      ");
    STag "trkpt" [("lat", fst (fst p)); ("lon", snd (fst p))];
    Chars (nl ++ "        "); STag "name" []; Chars (snd p); ETag "name";
    Chars (nl ++ "      "); ETag "trkpt" ].

Definition close_events : list event :=
  [ Chars (nl ++ "    "); ETag "trkseg";
    Chars (nl ++ "  "); ETag "trk";
    Chars nl; ETag "gpx"; Chars nl ].

(** A point whose texts are read back as they are. *)
Definition plain_point (p : point) : bool :=
  Str.forallb attr_plain (fst (fst p)) &&
  Str.forallb attr_plain (snd (fst p)) &&
  Str.forallb plain (snd p).

(** A point as it is written: the name escaped. *)
Definition escape_point (p : point) : point :=
  (fst (fst p), snd (fst p), Spec.escaped (snd p)).

(** The reader inside the segment of the track [name], the points in
    [done] read. *)
Definition in_segment (name : string) (done : list point) : reader :=
  Reader segment None "" name done.

End Events.

(** *** The pairs of a stream *)

Module Stream.

(** The decimal [b], with [rest] after it, is a whole number: the
    character that follows it, if there is one, does not continue it. *)
Definition whole (b rest : string) : Prop :=
  forall c t,
    rest = String c t -> Spec.is_decimal (b ++ String c EmptyString) = false.

(** [m] is a pair of the stream [d]: at its index stand "!1d", a
    decimal, "!2d" and a decimal that is a whole number; the match ends
    with it, and the two numbers are its groups. *)
Definition occurrence (d : string) (m : Re.found) : Prop :=
  exists before rest,
    d = before ++ "!1d" ++ Re.group 1 (Re.groups m) ++
        "!2d" ++ Re.group 2 (Re.groups m) ++ rest /\
    String.length before = Re.index m /\
    Re.last m = Re.index m + 3 + String.length (Re.group 1 (Re.groups m)) +
                3 + String.length (Re.group 2 (Re.groups m)) /\
    Spec.is_decimal (Re.group 1 (Re.groups m)) = true /\
    Spec.is_decimal (Re.group 2 (Re.groups m)) = true /\
    whole (Re.group 2 (Re.groups m)) rest.

(** The matches follow one another, the first one at [from] or after. *)
Fixpoint in_order (from : nat) (ms : list Re.found) : Prop :=
  match ms with
  | [] => True
  | m :: ms' =>
      from <= Re.index m /\ Re.index m < Re.last m /\ in_order (Re.last m) ms'
  end.

Definition not_bang (c : ascii) : bool := negb (Str.chr "!" c).

(** Every pair of the stream starts one of the matches. *)
Definition complete (d : string) (ms : list Re.found) : Prop :=
  forall before a b rest,
    d = before ++ "!1d" ++ a ++ "!2d" ++ b ++ rest ->
    Spec.is_decimal a = true -> Spec.is_decimal b = true ->
    exists m, In m ms /\ Re.index m = String.length before.

End Stream.

(** ** The claims as they are stated *)

Definition map_result {A B : Type} (f : A -> B) (r : result A) : result B :=
  match r with
  | Ok a => Ok (f a)
  | Throw e => Throw e
  | Hang => Hang
  end.

Module Claims.
Import Lib.

Section WithPlatform.
Context {P : Platform}.

(** The waypoints returned are the pairs of the stream, all of them. *)
Definition stream_returned (url : string) : Prop :=
  forall u wps names d ms,
    URL_new url = Some u ->
    Spec.strategy1 (Spec.path_segments url) = Ok (wps, names) ->
    Spec.data_parameter u url = Ok (Some d) ->
    Re.exec_all coordRegex d = Some ms ->
    ms <> [] ->
    exists rn,
      parseGoogleMapsUrl url =
      Ok {| waypoints := Spec.stream_waypoints names ms; routeName := rn |}.

(** Strategy 1 looks at the segments that are not empty. *)
Definition nonempty_segments (url : string) : Prop :=
  dirStage url = Spec.strategy1 (Spec.path_segments_nonempty url).

(** The name of the track is the override when there is one, and a
    point has its own name when it has one. *)
Definition document_as_claimed (r : RouteData) (override : option string)
  : Prop :=
  generateGpx r override =
  Spec.document (Spec.escaped (Spec.track_name_claimed r override))
                (List.map Spec.written_claimed (Spec.numbered 1 (waypoints r))).

(** Reading the document back gives the waypoints. *)
Definition round_trip (r : RouteData) : Prop :=
  exists track points,
    Xml.read_gpx (generateGpx r None) = Some (track, points) /\
    Spec.same_points points (waypoints r).

End WithPlatform.
End Claims.

(** ** Inputs of the examples, on the reference platform *)

Module Examples.
Import Lib Ref.

(** A directions URL with a data parameter in its path; the first pair
    of the stream is (0, 0). *)
Definition url_stream : string :=
  "https://www.google.com/maps/dir/Sydney/Melbourne/@-37.8,144.9,10z/data=!4m2!1d0!2d0!1d151.2!2d-33.8".

Definition data_stream : string := "!4m2!1d0!2d0!1d151.2!2d-33.8".

Definition matches_stream : list Re.found :=
  [ Re.Found 4 12 [(2, "0"); (1, "0")];
    Re.Found 12 28 [(2, "-33.8"); (1, "151.2")] ].

Definition route_stream : RouteData :=
  {| waypoints := [ {| lat := parseFloat "-33.8"; lng := parseFloat "151.2";
                       name := Some "Melbourne" |} ];
     routeName := "Sydney to Melbourne" |}.

(** A place URL whose only coordinate is (0, 0). *)
Definition url_origin : string :=
  "https://www.google.com/maps/place/Null+Island/@0,0,10z".

(** A directions URL with a segment that is one space. *)
Definition url_blank : string :=
  "https://www.google.com/maps/dir/Sydney/ /Melbourne".

(** A route of one waypoint with a name, and one of a waypoint without. *)
Definition route_named : RouteData :=
  {| waypoints := [ {| lat := parseFloat "1"; lng := parseFloat "2";
                       name := Some "A" |} ];
     routeName := "R" |}.

Definition route_unnamed : RouteData :=
  {| waypoints := [ {| lat := parseFloat "1"; lng := parseFloat "2";
                       name := None |} ];
     routeName := "R" |}.

Definition route_two : RouteData :=
  {| waypoints := [ {| lat := parseFloat "-33.8688"; lng := parseFloat "151.2093";
                       name := None |};
                    {| lat := parseFloat "-37.8"; lng := parseFloat "144.9";
                       name := Some "Tom & <Jerry>" |} ];
     routeName := "Sydney's route" |}.

Definition morning : Date :=
  {| getFullYear := 2024; getMonth := 0; getDate := 5;
     getHours := 7; getMinutes := 8; getSeconds := 9 |}.

Definition evening : Date :=
  {| getFullYear := 2024; getMonth := 11; getDate := 31;
     getHours := 23; getMinutes := 59; getSeconds := 58 |}.

End Examples.

(* ================================================================= *)
(** * Part II: lemmas and theorems *)
(* ================================================================= *)

(** ** Strings *)

Module StrFacts.
Import Str.

Lemma append_nil_r : forall s, s ++ "" = s.
Proof. induction s as [| c s IH]; simpl; [reflexivity | now rewrite IH]. Qed.

Lemma append_assoc : forall a b c : string, (a ++ b) ++ c = a ++ (b ++ c).
Proof. induction a as [| x a IH]; intros; simpl; [reflexivity | now rewrite IH]. Qed.

Lemma length_append : forall a b, String.length (a ++ b) = String.length a + String.length b.
Proof. induction a as [| x a IH]; intros; simpl; [reflexivity | now rewrite IH]. Qed.

Lemma subst_app : forall f a b, subst f (a ++ b) = subst f a ++ subst f b.
Proof.
  induction a as [| x a IH]; intros; simpl; [reflexivity |].
  now rewrite IH, append_assoc.
Qed.

Lemma subst_subst : forall f g s,
  subst f (subst g s) = subst (fun c => subst f (g c)) s.
Proof.
  induction s as [| x s IH]; simpl; [reflexivity |].
  now rewrite subst_app, IH.
Qed.

Lemma subst_ext : forall f g, (forall c, f c = g c) ->
  forall s, subst f s = subst g s.
Proof.
  intros f g H; induction s as [| x s IH]; simpl; [reflexivity |].
  now rewrite H, IH.
Qed.

Lemma subst_filter : forall (p : ascii -> bool) (s : string),
  subst (fun c => if p c then "" else String c "") s = filter (fun c => negb (p c)) s.
Proof.
  induction s as [| x s IH]; simpl; [reflexivity |].
  destruct (p x); simpl; now rewrite IH.
Qed.

Lemma subst_map : forall (f : ascii -> ascii) (s : string),
  subst (fun c => String (f c) "") s = map f s.
Proof. induction s as [| x s IH]; simpl; [reflexivity | now rewrite IH]. Qed.

Lemma filter_ext : forall p p', (forall c, p c = p' c) ->
  forall s, filter p s = filter p' s.
Proof.
  intros p p' H; induction s as [| x s IH]; simpl; [reflexivity |].
  now rewrite H, IH.
Qed.

Lemma chr_true : forall a c, chr a c = true <-> c = a.
Proof. intros; unfold chr; apply Ascii.eqb_eq. Qed.

Lemma chr_refl : forall a, chr a a = true.
Proof. intros; unfold chr; apply Ascii.eqb_refl. Qed.

Lemma take_drop : forall p s, take_while p s ++ drop_while p s = s.
Proof.
  induction s as [| c t IH]; simpl; [reflexivity |].
  destruct (p c); simpl; [now rewrite IH | reflexivity].
Qed.

Lemma take_while_all : forall p s, forallb p (take_while p s) = true.
Proof.
  induction s as [| c t IH]; simpl; [reflexivity |].
  destruct (p c) eqn:E; simpl; [now rewrite E | reflexivity].
Qed.

Lemma drop_while_end_empty : forall p s,
  is_empty (drop_while_end p s) = forallb p s.
Proof.
  induction s as [| c t IH]; simpl; [reflexivity |].
  rewrite IH. destruct (p c), (forallb p t); reflexivity.
Qed.

Lemma forallb_take_all : forall p s, forallb p s = true -> take_while p s = s.
Proof.
  induction s as [| c t IH]; simpl; [reflexivity |].
  destruct (p c); simpl; [intros H; now rewrite IH | discriminate].
Qed.

Lemma substring_prefix : forall a b, substring 0 (String.length a) (a ++ b) = a.
Proof.
  induction a as [| c a IH]; intros b; simpl.
  - now destruct b.
  - now rewrite IH.
Qed.

Lemma forallb_app : forall p a b, forallb p (a ++ b) = forallb p a && forallb p b.
Proof.
  induction a as [| c a IH]; intros; simpl; [reflexivity |].
  now rewrite IH, andb_assoc.
Qed.

Lemma forallb_impl : forall (p p' : ascii -> bool), (forall c, p c = true -> p' c = true) ->
  forall s, forallb p s = true -> forallb p' s = true.
Proof.
  intros p p' H; induction s as [| c t IH]; simpl; [reflexivity |].
  intros E. apply andb_true_iff in E. destruct E as [E1 E2].
  now rewrite (H _ E1), IH.
Qed.

Lemma take_while_app_all : forall p a b,
  forallb p a = true -> take_while p (a ++ b) = a ++ take_while p b.
Proof.
  induction a as [| c a IH]; intros b H; simpl in *; [reflexivity |].
  apply andb_true_iff in H. destruct H as [E H]. rewrite E. now rewrite IH.
Qed.

Lemma drop_while_app_all : forall p a b,
  forallb p a = true -> drop_while p (a ++ b) = drop_while p b.
Proof.
  induction a as [| c a IH]; intros b H; simpl in *; [reflexivity |].
  apply andb_true_iff in H. destruct H as [E H]. rewrite E. now apply IH.
Qed.

Lemma strip_prefix_app : forall pre s, strip_prefix pre (pre ++ s) = Some s.
Proof.
  induction pre as [| c pre IH]; intros; simpl; [reflexivity |].
  now rewrite Ascii.eqb_refl.
Qed.

Lemma strip_prefix_Some : forall pre s t, strip_prefix pre s = Some t -> s = pre ++ t.
Proof.
  induction pre as [| c pre IH]; intros s t H; simpl in *.
  - now inversion H.
  - destruct s as [| x s]; [discriminate |].
    destruct (Ascii.eqb x c) eqn:E; [| discriminate].
    apply Ascii.eqb_eq in E. subst x. f_equal. now apply IH.
Qed.

End StrFacts.

(** ** The matcher *)

Module ReFacts.
Import Re Str StrFacts.

Lemma at_Chr : forall p n s,
  at_ (Chr p) n s =
  match s with
  | String c _ => if p c then Some (Found n (S n) []) else None
  | EmptyString => None
  end.
Proof. intros p n [| c t]; unfold at_; simpl; [reflexivity | now destruct (p c)]. Qed.

(** Replacing a one-character pattern is a substitution. *)
Lemma replace_from_Chr : forall p by_ s n,
  replace_from (Chr p) by_ n 0 s =
  subst (fun c => if p c then by_ else String c "") s.
Proof.
  induction s as [| c t IH]; intros n.
  - reflexivity.
  - cbn [replace_from]. rewrite at_Chr. cbn [subst].
    destruct (p c); cbn [last].
    + replace (S n - n) with 1 by lia. now rewrite IH.
    + now rewrite IH.
Qed.

Lemma replace_Chr : forall p by_ s,
  replace (Chr p) by_ s = subst (fun c => if p c then by_ else String c "") s.
Proof. intros; apply replace_from_Chr. Qed.

(** [p*] before a continuation that takes any state: the longest run. *)
Lemma star_total : forall p s n cs,
  star p n s cs Some =
  Some (MState (n + String.length (take_while p s)) (drop_while p s) cs).
Proof.
  induction s as [| c t IH]; intros; simpl.
  - now rewrite Nat.add_0_r.
  - destruct (p c); simpl.
    + rewrite IH. now rewrite Nat.add_succ_r.
    + now rewrite Nat.add_0_r.
Qed.

Lemma at_Plus : forall p n s,
  at_ (Plus p) n s =
  if is_empty (take_while p s) then None
  else Some (Found n (n + String.length (take_while p s)) []).
Proof.
  intros p n [| c t]; unfold at_; simpl; [reflexivity |].
  destruct (p c); simpl; [| reflexivity].
  rewrite star_total. simpl. now rewrite Nat.add_succ_r.
Qed.

(** [p*] before the end of the input: all that remains, or nothing. *)
Lemma star_eol : forall p s n cs,
  star p n s cs (fun st => rmatch Eol st Some) =
  if forallb p s then Some (MState (n + String.length s) "" cs) else None.
Proof.
  induction s as [| c t IH]; intros; simpl.
  - now rewrite Nat.add_0_r.
  - destruct (p c); simpl; [| reflexivity].
    rewrite IH. destruct (forallb p t); [now rewrite Nat.add_succ_r | reflexivity].
Qed.

(** The characters of a match that are still to be passed are passed. *)
Lemma replace_from_skip : forall r by_ a b n,
  replace_from r by_ n (String.length a) (a ++ b) =
  replace_from r by_ (n + String.length a) 0 b.
Proof.
  induction a as [| c a IH]; intros; simpl.
  - now rewrite Nat.add_0_r.
  - rewrite IH. now rewrite Nat.add_succ_r.
Qed.

Lemma replace_from_skip_all : forall r by_ a n,
  replace_from r by_ n (String.length a) a = replace_from r by_ (n + String.length a) 0 "".
Proof.
  intros. rewrite <- (append_nil_r a) at 2. apply replace_from_skip.
Qed.

End ReFacts.

Module EscapeFacts.
Import Re Str StrFacts ReFacts Lib.

Section WithPlatform.
Context {P : Platform}.

Lemma escapeXml_escaped : forall s, escapeXml s = Spec.escaped s.
Proof.
  intros s. unfold escapeXml, Spec.escaped.
  rewrite !replace_Chr, !subst_subst.
  apply subst_ext. intros c.
  destruct c as [[] [] [] [] [] [] [] []]; reflexivity.
Qed.

Lemma escapeXml_app : forall a b, escapeXml (a ++ b) = escapeXml a ++ escapeXml b.
Proof. intros. rewrite !escapeXml_escaped. apply subst_app. Qed.

End WithPlatform.
End EscapeFacts.

Module SlugFacts.
Import Re Str StrFacts ReFacts Lib.

Lemma replace_unsafe : forall s, replace re_unsafe "" s = filter Spec.kept s.
Proof.
  intros. unfold re_unsafe. rewrite replace_Chr, subst_filter.
  apply filter_ext. intros c. unfold Spec.kept. now rewrite negb_involutive.
Qed.

Lemma replace_Plus_collapse : forall p s n,
  replace_from (Plus p) "-" n 0 s = Spec.collapse p false s /\
  replace_from (Plus p) "-" n (String.length (take_while p s)) s =
    Spec.collapse p true s.
Proof.
  induction s as [| c t IH]; intros n.
  - split; reflexivity.
  - assert (H0 : replace_from (Plus p) "-" n 0 (String c t) =
                 Spec.collapse p false (String c t)).
    { cbn [replace_from]. rewrite at_Plus. cbn [take_while Spec.collapse].
      destruct (p c) eqn:E; cbn [is_empty last String.length].
      - replace (n + S (String.length (take_while p t)) - n)
          with (S (String.length (take_while p t))) by lia.
        now rewrite (proj2 (IH (S n))).
      - now rewrite (proj1 (IH (S n))). }
    split; [exact H0 |].
    cbn [take_while]. destruct (p c) eqn:E.
    + cbn [String.length replace_from Spec.collapse]. rewrite E.
      apply (proj2 (IH (S n))).
    + cbn [String.length]. rewrite H0. cbn [Spec.collapse]. now rewrite E.
Qed.

Lemma replace_separators : forall s,
  replace re_separators "-" s = Spec.collapse Spec.separator false s.
Proof. intros. apply (proj1 (replace_Plus_collapse _ s 0)). Qed.

Lemma at_edge_0 : forall s,
  at_ re_edge_hyphens 0 s =
  if is_empty (take_while Spec.hyphen s) then None
  else Some (Found 0 (String.length (take_while Spec.hyphen s)) []).
Proof.
  intros s. unfold at_, re_edge_hyphens. cbn [rmatch pos Nat.eqb].
  destruct s as [| c t]; cbn [rest take_while is_empty]; [reflexivity |].
  fold Spec.hyphen. destruct (Spec.hyphen c) eqn:E; cbn [is_empty]; [| reflexivity].
  cbn [caps]. rewrite star_total. reflexivity.
Qed.

Lemma at_edge_S : forall n s,
  at_ re_edge_hyphens (S n) s =
  if negb (is_empty s) && forallb Spec.hyphen s
  then Some (Found (S n) (S n + String.length s) []) else None.
Proof.
  intros n s. unfold at_, re_edge_hyphens. cbn [rmatch pos Nat.eqb].
  destruct s as [| c t]; cbn [rest is_empty negb forallb andb]; [reflexivity |].
  fold Spec.hyphen. destruct (Spec.hyphen c) eqn:E; [| reflexivity].
  cbn [caps]. rewrite star_eol. fold Spec.hyphen.
  destruct (forallb Spec.hyphen t); [| reflexivity].
  cbn [pos caps String.length]. now rewrite Nat.add_succ_r.
Qed.

Lemma replace_edge_inner : forall s n,
  replace_from re_edge_hyphens "" (S n) 0 s = drop_while_end Spec.hyphen s.
Proof.
  induction s as [| c t IH]; intros n.
  - reflexivity.
  - cbn [replace_from]. rewrite at_edge_S. cbn [is_empty negb andb].
    cbn [drop_while_end]. rewrite drop_while_end_empty.
    cbn [forallb]. destruct (Spec.hyphen c && forallb Spec.hyphen t) eqn:E.
    + cbn [last String.length append].
      replace (S n + S (String.length t) - S n) with (S (String.length t)) by lia.
      rewrite replace_from_skip_all. reflexivity.
    + cbn [append]. now rewrite IH.
Qed.

Lemma replace_edge : forall s,
  replace re_edge_hyphens "" s = drop_while_end Spec.hyphen (drop_while Spec.hyphen s).
Proof.
  intros s. unfold replace. destruct s as [| c t]; [reflexivity |].
  cbn [replace_from]. rewrite at_edge_0. cbn [take_while drop_while].
  destruct (Spec.hyphen c) eqn:E; cbn [is_empty append last String.length].
  - rewrite Nat.sub_0_r.
    rewrite <- (take_drop Spec.hyphen t) at 2.
    rewrite replace_from_skip. apply replace_edge_inner.
  - rewrite replace_edge_inner. cbn [drop_while_end]. now rewrite E.
Qed.

Theorem slugify_slug : forall text, slugify text = Spec.slug text.
Proof.
  intros. unfold slugify, Spec.slug.
  now rewrite replace_unsafe, replace_separators, replace_edge.
Qed.

End SlugFacts.

Module ReSemFacts.
Import Re ReSem Str StrFacts ReFacts.

Lemma mstate_eta : forall st, MState (pos st) (rest st) (caps st) = st.
Proof. now intros []. Qed.

(** *** The matcher finds only matches *)

Lemma star_sound : forall p s n cs k res,
  star p n s cs k = Some res ->
  exists st', Matches (Star p) (MState n s cs) st' /\ k st' = Some res.
Proof.
  induction s as [| c t IH]; intros n cs k res H; simpl in H.
  - eexists; split; [apply MStarNo | exact H].
  - destruct (p c) eqn:E.
    + destruct (star p (S n) t cs k) as [r |] eqn:E'.
      * inversion H; subst r. apply IH in E'. destruct E' as (st' & M & K).
        exists st'; split; [| exact K].
        eapply MStarYes; [reflexivity | exact E | exact M].
      * eexists; split; [apply MStarNo | exact H].
    + eexists; split; [apply MStarNo | exact H].
Qed.

Theorem rmatch_sound : forall r st k res,
  rmatch r st k = Some res ->
  exists st', Matches r st st' /\ k st' = Some res.
Proof.
  induction r as [| p | p | p | p | r1 IH1 r2 IH2 | r1 IH1 r2 IH2 | i r IH | |];
    intros st k res H; simpl in H.
  - eexists; split; [constructor | exact H].
  - destruct (rest st) as [| c t] eqn:R; [discriminate |].
    destruct (p c) eqn:E; [| discriminate].
    eexists; split; [eapply MChr; eauto | exact H].
  - destruct (rest st) as [| c t] eqn:R.
    + eexists; split; [apply MOptNo | exact H].
    + destruct (p c) eqn:E.
      * destruct (k (step st t)) as [r |] eqn:K.
        -- inversion H; subst r.
           eexists; split; [eapply MOptYes; eauto | exact K].
        -- eexists; split; [apply MOptNo | exact H].
      * eexists; split; [apply MOptNo | exact H].
  - apply star_sound in H. now rewrite mstate_eta in H.
  - destruct (rest st) as [| c t] eqn:R; [discriminate |].
    destruct (p c) eqn:E; [| discriminate].
    apply star_sound in H. destruct H as (st' & M & K).
    exists st'; split; [| exact K]. eapply MPlus; eauto.
  - apply IH1 in H. destruct H as (st1 & M1 & H).
    apply IH2 in H. destruct H as (st2 & M2 & H).
    exists st2; split; [eapply MSeq; eauto | exact H].
  - destruct (rmatch r1 st k) as [r |] eqn:E1.
    + inversion H; subst r. apply IH1 in E1. destruct E1 as (st' & M & K).
      exists st'; split; [now apply MAltL | exact K].
    + apply IH2 in H. destruct H as (st' & M & K).
      exists st'; split; [now apply MAltR | exact K].
  - apply IH in H. destruct H as (st' & M & K).
    eexists; split; [apply MGroup; exact M | exact K].
  - destruct (pos st =? 0) eqn:E; [| discriminate].
    apply Nat.eqb_eq in E.
    eexists; split; [now apply MBol | exact H].
  - destruct (rest st) eqn:R; [| discriminate].
    eexists; split; [now apply MEol | exact H].
Qed.

(** *** The matcher finds a match when there is one *)

Lemma star_unfold : forall p st k,
  rmatch (Star p) st k = star p (pos st) (rest st) (caps st) k.
Proof. reflexivity. Qed.

Theorem rmatch_complete : forall r st st',
  Matches r st st' ->
  forall k, k st' <> None -> rmatch r st k <> None.
Proof.
  induction 1; intros k K; simpl.
  - exact K.
  - now rewrite H, H0.
  - destruct (rest st) as [| c t]; [exact K |].
    destruct (p c); [| exact K].
    destruct (k (step st t)); [discriminate | exact K].
  - rewrite H, H0. now destruct (k (step st t)).
  - destruct (rest st) as [| c t] eqn:R; simpl.
    + now rewrite <- R, mstate_eta.
    + destruct (p c).
      * destruct (star p (S (pos st)) t (caps st) k); [discriminate |].
        now rewrite <- R, mstate_eta.
      * now rewrite <- R, mstate_eta.
  - rewrite H. simpl. rewrite H0.
    specialize (IHMatches k K). rewrite star_unfold in IHMatches. simpl in IHMatches.
    now destruct (star p (S (pos st)) t (caps st) k).
  - rewrite H, H0.
    specialize (IHMatches k K). now rewrite star_unfold in IHMatches.
  - apply IHMatches1. now apply IHMatches2.
  - specialize (IHMatches k K). now destruct (rmatch r1 st k).
  - destruct (rmatch r1 st k); [discriminate | now apply IHMatches].
  - now apply IHMatches.
  - now rewrite H.
  - now rewrite H.
Qed.

(** *** What a match takes from the input *)

Lemma Matches_consumes : forall r st st',
  Matches r st st' ->
  exists w, rest st = w ++ rest st' /\ pos st' = pos st + String.length w.
Proof.
  induction 1.
  - exists ""; split; [reflexivity | simpl; lia].
  - exists (String c ""); split; [exact H | simpl; lia].
  - exists ""; split; [reflexivity | simpl; lia].
  - exists (String c ""); split; [exact H | simpl; lia].
  - exists ""; split; [reflexivity | simpl; lia].
  - destruct IHMatches as (w & R & Q). simpl in R, Q.
    exists (String c w); split; [rewrite H; simpl; now rewrite R | simpl; lia].
  - destruct IHMatches as (w & R & Q). simpl in R, Q.
    exists (String c w); split; [rewrite H; simpl; now rewrite R | simpl; lia].
  - destruct IHMatches1 as (w1 & R1 & Q1), IHMatches2 as (w2 & R2 & Q2).
    exists (w1 ++ w2); split.
    + now rewrite R1, R2, append_assoc.
    + rewrite length_append; lia.
  - exact IHMatches.
  - exact IHMatches.
  - exact IHMatches.
  - exists ""; split; [reflexivity | simpl; lia].
  - exists ""; split; [reflexivity | simpl; lia].
Qed.

Lemma Matches_advances : forall r st st',
  Matches r st st' -> pos st <= pos st' /\ (consuming r = true -> pos st < pos st').
Proof.
  induction 1; simpl; try (split; [lia | discriminate]).
  - split; [lia | intros _; lia].
  - simpl in IHMatches. split; [lia | discriminate].
  - simpl in IHMatches. split; [lia | intros _; lia].
  - destruct IHMatches1, IHMatches2. split; [lia |].
    intros C. apply orb_true_iff in C. destruct C; [specialize (H2 H5) | specialize (H4 H5)]; lia.
  - destruct IHMatches. split; [lia |].
    intros C. apply andb_true_iff in C. tauto.
  - destruct IHMatches. split; [lia |].
    intros C. apply andb_true_iff in C. tauto.
  - exact IHMatches.
Qed.

(** A match found at [n] is a match, and ends after [n] when the
    pattern is consuming. *)
Lemma at_sound : forall r n s m,
  at_ r n s = Some m ->
  index m = n /\
  exists t, Matches r (MState n s []) (MState (last m) t (groups m)).
Proof.
  unfold at_. intros r n s m H.
  destruct (rmatch r (MState n s []) Some) as [st |] eqn:E; [| discriminate].
  inversion H; subst m; clear H. simpl. split; [reflexivity |].
  apply rmatch_sound in E. destruct E as (st' & M & K).
  inversion K; subst st'. exists (rest st). now rewrite mstate_eta.
Qed.

Lemma at_complete : forall r n s st',
  Matches r (MState n s []) st' -> at_ r n s <> None.
Proof.
  unfold at_. intros r n s st' M.
  pose proof (rmatch_complete M Some) as C.
  destruct (rmatch r (MState n s []) Some); [discriminate |].
  exfalso. apply C; [discriminate | reflexivity].
Qed.

Lemma at_advances : forall r n s m,
  consuming r = true -> at_ r n s = Some m -> n < last m.
Proof.
  intros r n s m C H. apply at_sound in H. destruct H as (_ & t & M).
  apply Matches_advances in M. simpl in M. now apply M.
Qed.

(** *** The [exec] loop ends *)

Theorem exec_from_total : forall r, consuming r = true ->
  forall s n skip, exec_from r n skip s <> None.
Proof.
  intros r C. induction s as [| c t IH]; intros n skip.
  - destruct skip; simpl; [| discriminate].
    destruct (at_ r n "") as [m |] eqn:E; [| discriminate].
    apply at_advances in E; [| exact C].
    destruct (last m - n) eqn:D; [lia | discriminate].
  - destruct skip; simpl; [| apply IH].
    destruct (at_ r n (String c t)) as [m |] eqn:E; [| apply IH].
    apply at_advances in E; [| exact C].
    destruct (last m - n) eqn:D; [lia |].
    specialize (IH (S n) n0). now destruct (exec_from r (S n) n0 t).
Qed.

End ReSemFacts.

Module MarkerFacts.
Import Re ReSem Str StrFacts ReFacts ReSemFacts.

Lemma rmatch_lit : forall mk st k,
  rmatch (lit mk) st k =
  match strip_prefix mk (rest st) with
  | Some t => k (MState (pos st + String.length mk) t (caps st))
  | None => None
  end.
Proof.
  induction mk as [| c mk IH]; intros st k; simpl.
  - now rewrite Nat.add_0_r, mstate_eta.
  - destruct (rest st) as [| x s]; [reflexivity |].
    unfold chr. destruct (Ascii.eqb x c); [| reflexivity].
    rewrite IH. simpl. now rewrite Nat.add_succ_r.
Qed.

(** [p*] before a continuation that takes any state: the longest run. *)
Lemma star_always : forall p (f : mstate -> mstate) s n cs,
  star p n s cs (fun st => Some (f st)) =
  Some (f (MState (n + String.length (take_while p s)) (drop_while p s) cs)).
Proof.
  induction s as [| c t IH]; intros; simpl.
  - now rewrite Nat.add_0_r.
  - destruct (p c); simpl.
    + rewrite IH. now rewrite Nat.add_succ_r.
    + now rewrite Nat.add_0_r.
Qed.

(** A literal and a captured run after it, at one index. *)
Lemma at_marker : forall mk i p n s,
  at_ (Seq (lit mk) (Group i (Plus p))) n s =
  match strip_prefix mk s with
  | Some t =>
      if is_empty (take_while p t) then None
      else Some (Found n (n + String.length mk + String.length (take_while p t))
                       [(i, take_while p t)])
  | None => None
  end.
Proof.
  intros. unfold at_. cbn [rmatch]. rewrite rmatch_lit. cbn [rest pos caps].
  destruct (strip_prefix mk s) as [t |]; [| reflexivity].
  cbn [rmatch rest]. destruct t as [| c t]; [reflexivity |].
  cbn [take_while]. destruct (p c) eqn:E; [| reflexivity].
  cbn [is_empty pos caps].
  rewrite (star_always p (fun st' => capture i (MState (n + String.length mk) (String c t) []) st')).
  unfold capture. cbn [pos rest caps String.length].
  replace (S (n + String.length mk) + String.length (take_while p t) - (n + String.length mk))
    with (String.length (String c (take_while p t))) by (cbn [String.length]; lia).
  pose proof (substring_prefix (String c (take_while p t)) (drop_while p t)) as Hs.
  cbn [append] in Hs. rewrite take_drop in Hs. rewrite Hs.
  do 2 f_equal. lia.
Qed.

(** The first such match is what follows the first marker. *)
Lemma search_marker : forall mk i p s n,
  option_map (fun m => group i (groups m))
             (search (Seq (lit mk) (Group i (Plus p))) n s) =
  Spec.after_marker mk p s.
Proof.
  induction s as [| c t IH]; intros n.
  - cbn [search Spec.after_marker]. rewrite at_marker.
    destruct (strip_prefix mk "") as [u |]; [| reflexivity].
    destruct (is_empty (take_while p u)); [reflexivity |].
    simpl. now rewrite Nat.eqb_refl.
  - cbn [search Spec.after_marker]. rewrite at_marker.
    destruct (strip_prefix mk (String c t)) as [u |]; [| apply IH].
    destruct (is_empty (take_while p u)); [apply IH |].
    simpl. now rewrite Nat.eqb_refl.
Qed.

End MarkerFacts.

Module DecimalFacts.
Import Re ReSem Str StrFacts ReFacts ReSemFacts Lib.

Lemma Star_word : forall p st st',
  Matches (Star p) st st' ->
  exists w, rest st = w ++ rest st' /\ forallb p w = true /\
            pos st' = pos st + String.length w /\ caps st' = caps st.
Proof.
  intros p st st' M. remember (Star p) as r eqn:R.
  induction M; inversion R; subst.
  - exists "". repeat split. simpl; lia.
  - destruct (IHM eq_refl) as (w & Hr & Hp & Hn & Hc). simpl in *.
    exists (String c w). repeat split.
    + rewrite H. simpl. now rewrite Hr.
    + simpl. now rewrite H0, Hp.
    + simpl. lia.
    + exact Hc.
Qed.

Lemma Star_intro : forall p a n t cs,
  forallb p a = true ->
  Matches (Star p) (MState n (a ++ t) cs) (MState (n + String.length a) t cs).
Proof.
  induction a as [| c a IH]; intros n t cs H; simpl in *.
  - rewrite Nat.add_0_r. apply MStarNo.
  - apply andb_true_iff in H. destruct H as [E H].
    eapply MStarYes; [reflexivity | exact E |].
    unfold step; simpl. rewrite Nat.add_succ_r. now apply (IH (S n)).
Qed.

Lemma digit_not_minus : forall c, digit c = true -> chr "-" c = false.
Proof. intros c; destruct c as [[] [] [] [] [] [] [] []]; vm_compute; congruence. Qed.

Lemma digit_not_point : forall c, digit c = true -> chr "." c = false.
Proof. intros c; destruct c as [[] [] [] [] [] [] [] []]; vm_compute; congruence. Qed.

Lemma digit_not_comma : forall c, digit c = true -> Spec.not_comma c = true.
Proof. intros c; destruct c as [[] [] [] [] [] [] [] []]; vm_compute; congruence. Qed.

Lemma unsigned_intro : forall c w1 w3,
  digit c = true -> forallb digit w1 = true -> forallb digit w3 = true ->
  Spec.unsigned_decimal (String c w1 ++ w3) = true /\
  Spec.unsigned_decimal (String c w1 ++ String "." w3) = true.
Proof.
  intros c w1 w3 Hc H1 H3. unfold Spec.unsigned_decimal. split.
  - assert (A : forallb digit (String c w1 ++ w3) = true).
    { rewrite forallb_app. simpl. now rewrite Hc, H1, H3. }
    rewrite (forallb_take_all _ _ A).
    rewrite <- (append_nil_r (String c w1 ++ w3)) at 2.
    rewrite drop_while_app_all by exact A. reflexivity.
  - assert (A : forallb digit (String c w1) = true) by (simpl; now rewrite Hc, H1).
    rewrite take_while_app_all by exact A.
    rewrite drop_while_app_all by exact A.
    simpl. now rewrite H3.
Qed.

(** What the decimal pattern matches is a signed decimal. *)
Lemma decimal_sound : forall st st',
  Matches decimal st st' ->
  exists w, rest st = w ++ rest st' /\ pos st' = pos st + String.length w /\
            caps st' = caps st /\ Spec.is_decimal w = true.
Proof.
  intros st st' M. unfold decimal in M. cbn [seq] in M.
  inversion M as [| | | | | | | r1 r2 s0 st1 s2 M1 M234 | | | | |]; subst; clear M.
  inversion M234 as [| | | | | | | r1 r2 s0 st2 s2 M2 M34 | | | | |]; subst; clear M234.
  inversion M34 as [| | | | | | | r1 r2 s0 st3 s2 M3 M4 | | | | |]; subst; clear M34.
  apply Star_word in M4. destruct M4 as (w3 & R3 & P3 & N3 & C3).
  inversion M2 as [| | | | | | p c t s0 s1 Rc Pc MS | | | | | |]; subst; clear M2.
  apply Star_word in MS. destruct MS as (w1 & R1 & P1 & N1 & C1). simpl in R1, N1, C1.
  assert (U : forall pt, forallb digit pt = true \/ (exists f, pt = String "." f /\ forallb digit f = true) ->
              Spec.is_decimal (String c w1 ++ pt) = true).
  { intros pt [Hd | (f & -> & Hf)]; cbn [append Spec.is_decimal];
      rewrite (digit_not_minus _ Pc).
    - apply (unsigned_intro c w1 pt Pc P1 Hd).
    - apply (unsigned_intro c w1 f Pc P1 Hf). }
  assert (V : exists pt, rest st1 = (String c w1 ++ pt) ++ rest st' /\
                         pos st' = pos st1 + String.length (String c w1 ++ pt) /\
                         caps st' = caps st1 /\
                         Spec.is_decimal (String c w1 ++ pt) = true /\
                         Spec.unsigned_decimal (String c w1 ++ pt) = true).
  { inversion M3 as [| | p0 s0 | p0 c0 t0 s0 R0 P0 | | | | | | | | |]; subst; clear M3.
    - exists w3. repeat split.
      + rewrite Rc, R3. cbn [append]. now rewrite append_assoc.
      + rewrite length_append. simpl; lia.
      + congruence.
      + apply U. now left.
      + apply (unsigned_intro c w1 w3 Pc P1 P3).
    - simpl in R3, N3, C3. apply chr_true in P0. subst c0.
      exists (String "." w3). repeat split.
      + rewrite Rc, R0, R3. cbn [append]. rewrite append_assoc. reflexivity.
      + rewrite length_append. simpl; lia.
      + congruence.
      + apply U. right. now exists w3.
      + apply (unsigned_intro c w1 w3 Pc P1 P3). }
  destruct V as (pt & VR & VN & VC & VD & VU).
  inversion M1 as [| | p0 s0 | p0 c0 t0 s0 R0 P0 | | | | | | | | |]; subst; clear M1.
  - exists (String c w1 ++ pt). repeat split; assumption.
  - apply chr_true in P0. subst c0. simpl in VR, VN, VC.
    exists (String "-" (String c w1 ++ pt)). repeat split.
    + rewrite R0. cbn [append]. now rewrite VR.
    + simpl in *. lia.
    + exact VC.
    + cbn [Spec.is_decimal]. rewrite chr_refl. exact VU.
Qed.

Lemma unsigned_Matches : forall u n t cs,
  Spec.unsigned_decimal u = true ->
  Matches (Seq (Plus digit) (Seq (Opt (chr ".")) (Star digit)))
          (MState n (u ++ t) cs) (MState (n + String.length u) t cs).
Proof.
  intros u n t cs H. unfold Spec.unsigned_decimal in H.
  apply andb_true_iff in H. destruct H as [H1 H2].
  pose proof (take_drop digit u) as TD.
  pose proof (take_while_all digit u) as TA.
  destruct (take_while digit u) as [| d ds]; [discriminate |]. clear H1.
  simpl in TA. apply andb_true_iff in TA. destruct TA as [Hd Hds].
  destruct (drop_while digit u) as [| x f].
  - rewrite append_nil_r in TD. subst u. cbn [append String.length].
    apply MSeq with (st1 := MState (S n + String.length ds) t cs).
    + eapply MPlus; [reflexivity | exact Hd |].
      unfold step; cbn [pos rest caps]. apply Star_intro. exact Hds.
    + apply MSeq with (st1 := MState (S n + String.length ds) t cs);
        [apply MOptNo |].
      replace (n + S (String.length ds)) with (S n + String.length ds) by lia.
      apply MStarNo.
  - apply andb_true_iff in H2. destruct H2 as [Hx Hf].
    apply chr_true in Hx. subst x. subst u.
    rewrite append_assoc. cbn [append].
    apply MSeq with (st1 := MState (S n + String.length ds) (String "." (f ++ t)) cs).
    + eapply MPlus; [reflexivity | exact Hd |].
      unfold step; cbn [pos rest caps].
      apply (Star_intro digit ds (S n) (String "." (f ++ t)) cs Hds).
    + apply MSeq with (st1 := MState (S (S n + String.length ds)) (f ++ t) cs).
      * apply (MOptYes (chr ".") (c := ".") (t := f ++ t)
                 (MState (S n + String.length ds) (String "." (f ++ t)) cs));
          [reflexivity | apply chr_refl].
      * replace (n + String.length (String d (ds ++ String "." f)))
          with (S (S n + String.length ds) + String.length f)
          by (cbn [String.length]; rewrite length_append; cbn [String.length]; lia).
        apply Star_intro. exact Hf.
Qed.

(** A signed decimal is matched by the decimal pattern. *)
Lemma decimal_complete : forall w n t cs,
  Spec.is_decimal w = true ->
  Matches decimal (MState n (w ++ t) cs) (MState (n + String.length w) t cs).
Proof.
  intros w n t cs H. unfold decimal. cbn [seq].
  destruct w as [| c u]; [discriminate |]. cbn [Spec.is_decimal] in H.
  destruct (chr "-" c) eqn:E.
  - eapply MSeq.
    + eapply MOptYes; [reflexivity | exact E].
    + unfold step; cbn [pos rest caps String.length].
      rewrite Nat.add_succ_r. now apply (unsigned_Matches u (S n) t cs).
  - eapply MSeq; [apply MOptNo |]. now apply unsigned_Matches.
Qed.

Lemma unsigned_chars : forall u, Spec.unsigned_decimal u = true ->
  forallb Spec.not_comma u = true.
Proof.
  intros u H. unfold Spec.unsigned_decimal in H.
  apply andb_true_iff in H. destruct H as [_ H].
  rewrite <- (take_drop digit u). rewrite forallb_app.
  apply andb_true_iff. split.
  - apply forallb_impl with (p := digit); [apply digit_not_comma | apply take_while_all].
  - destruct (drop_while digit u) as [| x f]; [reflexivity |].
    apply andb_true_iff in H. destruct H as [Hx Hf].
    apply chr_true in Hx. subst x. simpl.
    apply forallb_impl with (p := digit); [apply digit_not_comma | exact Hf].
Qed.

Lemma decimal_chars : forall w, Spec.is_decimal w = true ->
  forallb Spec.not_comma w = true.
Proof.
  intros [| c u] H; [reflexivity |]. cbn [Spec.is_decimal] in H.
  destruct (chr "-" c) eqn:E.
  - apply chr_true in E. subst c. simpl. now apply unsigned_chars.
  - now apply unsigned_chars.
Qed.

End DecimalFacts.

Module PairFacts.
Import Re ReSem Str StrFacts ReFacts ReSemFacts.
Import MarkerFacts DecimalFacts Lib.

Lemma Group_decimal : forall i st st',
  Matches (Group i decimal) st st' ->
  exists w, rest st = w ++ rest st' /\ pos st' = pos st + String.length w /\
            caps st' = (i, w) :: caps st /\ Spec.is_decimal w = true.
Proof.
  intros i st st' M.
  inversion M as [| | | | | | | | | | i0 r0 s0 stA MA | |]; subst; clear M.
  apply decimal_sound in MA. destruct MA as (w & Rw & Nw & Cw & Dw).
  exists w. unfold capture; cbn [rest pos caps]. repeat split; try assumption.
  rewrite Cw. do 2 f_equal. rewrite Rw, Nw.
  replace (pos st + String.length w - pos st) with (String.length w) by lia.
  apply substring_prefix.
Qed.

Lemma Group_decimal_intro : forall i w n t cs,
  Spec.is_decimal w = true ->
  Matches (Group i decimal) (MState n (w ++ t) cs)
          (MState (n + String.length w) t ((i, w) :: cs)).
Proof.
  intros i w n t cs H.
  pose proof (MGroup i (decimal_complete w n t cs H)) as M.
  unfold capture in M; cbn [pos rest caps] in M.
  replace (n + String.length w - n) with (String.length w) in M by lia.
  now rewrite substring_prefix in M.
Qed.

(** What the coordinate-pair pattern matches. *)
Lemma pair_sound : forall seg st',
  Matches re_pair (MState 0 seg []) st' ->
  exists a b, seg = a ++ String "," b /\
              Spec.is_decimal a = true /\ Spec.is_decimal b = true /\
              caps st' = [(2, b); (1, a)].
Proof.
  intros seg st' M. unfold re_pair in M. cbn [seq] in M.
  inversion M as [| | | | | | | r1 r2 s0 st1 s2 M1 M2345 | | | | |]; subst; clear M.
  inversion M1; subst; clear M1.
  inversion M2345 as [| | | | | | | r1 r2 s0 st2 s2 M2 M345 | | | | |]; subst; clear M2345.
  apply Group_decimal in M2. destruct M2 as (a & Ra & Na & Ca & Da).
  cbn [rest pos caps] in Ra, Na, Ca.
  inversion M345 as [| | | | | | | r1 r2 s0 st3 s2 M3 M45 | | | | |]; subst; clear M345.
  inversion M3 as [| p c t s0 Rc Pc | | | | | | | | | | |]; subst; clear M3.
  apply chr_true in Pc. subst c.
  inversion M45 as [| | | | | | | r1 r2 s0 st4 s2 M4 M5 | | | | |]; subst; clear M45.
  apply Group_decimal in M4. destruct M4 as (b & Rb & Nb & Cb & Db).
  cbn [step rest pos caps] in Rb, Nb, Cb.
  inversion M5 as [| | | | | | | | | | | | s0 Re]; subst; clear M5.
  exists a, b. repeat split; try assumption.
  - rewrite Rc, Re. now rewrite append_nil_r.
  - now rewrite Cb, Ca.
Qed.

Lemma pair_complete : forall a b,
  Spec.is_decimal a = true -> Spec.is_decimal b = true ->
  exists st', Matches re_pair (MState 0 (a ++ String "," b) []) st'.
Proof.
  intros a b Da Db. unfold re_pair. cbn [seq].
  exists (MState (S (0 + String.length a) + String.length b) "" [(2, b); (1, a)]).
  rewrite <- (append_nil_r b) at 1.
  eapply MSeq; [now apply MBol |].
  eapply MSeq; [apply (Group_decimal_intro 1 a 0 (String "," (b ++ "")) [] Da) |].
  eapply MSeq; [eapply MChr; [reflexivity | apply chr_refl] |].
  unfold step; cbn [pos rest caps].
  eapply MSeq.
  - apply (Group_decimal_intro 2 b _ "" _ Db).
  - now apply MEol.
Qed.

Lemma pair_of_intro : forall a b,
  Spec.is_decimal a = true -> Spec.is_decimal b = true ->
  Spec.pair_of (a ++ String "," b) = Some (a, b).
Proof.
  intros a b Da Db. unfold Spec.pair_of.
  pose proof (decimal_chars a Da) as Ha.
  rewrite take_while_app_all, drop_while_app_all by exact Ha.
  cbn. rewrite append_nil_r. now rewrite Da, Db.
Qed.

Lemma pair_of_elim : forall seg a b,
  Spec.pair_of seg = Some (a, b) ->
  seg = a ++ String "," b /\ Spec.is_decimal a = true /\ Spec.is_decimal b = true.
Proof.
  intros seg a b H. unfold Spec.pair_of in H.
  pose proof (take_drop Spec.not_comma seg) as TD.
  destruct (drop_while Spec.not_comma seg) as [| x r] eqn:ED; [discriminate |].
  destruct (Spec.is_decimal (take_while Spec.not_comma seg)) eqn:D1; [| discriminate].
  destruct (Spec.is_decimal r) eqn:D2; [| discriminate].
  cbn in H. inversion H; subst a b; clear H.
  assert (x = ","%char).
  { destruct seg as [| c t]; [discriminate |].
    assert (G : forall s y u, drop_while Spec.not_comma s = String y u -> y = ","%char).
    { induction s as [| z s IH]; intros y u E; simpl in E; [discriminate |].
      destruct (Spec.not_comma z) eqn:Z; [now apply IH in E |].
      inversion E; subst. unfold Spec.not_comma in Z.
      apply negb_false_iff in Z. now apply chr_true in Z. }
    now apply G in ED. }
  subst x. repeat split; [now rewrite TD | exact D1 | exact D2].
Qed.

Lemma at_pair_S : forall n s, at_ re_pair (S n) s = None.
Proof. reflexivity. Qed.

Lemma search_pair_S : forall s n, search re_pair (S n) s = None.
Proof.
  induction s as [| c t IH]; intros n; cbn [search]; rewrite at_pair_S;
    [reflexivity | apply IH].
Qed.

Lemma match_pair_at : forall seg, match_ re_pair seg = at_ re_pair 0 seg.
Proof.
  intros seg. unfold match_. destruct seg as [| c t]; cbn [search].
  - now destruct (at_ re_pair 0 "").
  - destruct (at_ re_pair 0 (String c t)); [reflexivity | apply search_pair_S].
Qed.

(** A segment matches the pattern when it is a pair of decimals, and the
    groups are the two decimals. *)
Theorem match_pair_Some : forall seg m,
  match_ re_pair seg = Some m ->
  Spec.pair_of seg = Some (group 1 (groups m), group 2 (groups m)).
Proof.
  intros seg m H. rewrite match_pair_at in H.
  apply at_sound in H. destruct H as (_ & t & M).
  apply pair_sound in M. destruct M as (a & b & -> & Da & Db & C).
  cbn [caps] in C. rewrite C. cbn. now apply pair_of_intro.
Qed.

Theorem match_pair_None : forall seg,
  match_ re_pair seg = None -> Spec.pair_of seg = None.
Proof.
  intros seg H. destruct (Spec.pair_of seg) as [[a b] |] eqn:E; [| reflexivity].
  apply pair_of_elim in E. destruct E as (-> & Da & Db).
  destruct (pair_complete a b Da Db) as (st' & M).
  apply at_complete in M. rewrite match_pair_at in H. contradiction.
Qed.

End PairFacts.

Module NumberFacts.
Import Re ReSem Str StrFacts ReFacts ReSemFacts.
Import MarkerFacts DecimalFacts Lib Stream.

Lemma star_ext : forall p s n cs (k k' : cont),
  (forall st, k st = k' st) -> star p n s cs k = star p n s cs k'.
Proof.
  induction s as [| c t IH]; intros n cs k k' H; simpl.
  - apply H.
  - destruct (p c); [| apply H].
    rewrite (IH (S n) cs k k' H). now rewrite H.
Qed.

Lemma drop_while_head : forall p s c r,
  drop_while p s = String c r -> p c = false.
Proof.
  induction s as [| x t IH]; intros c r H; simpl in H; [discriminate |].
  destruct (p x) eqn:E; [now apply (IH c r) | inversion H; now subst].
Qed.

(** The pattern of a decimal, before a continuation that takes any
    state, takes the number at the head of the input. *)
Lemma take_drop_while : forall p s, take_while p (drop_while p s) = "".
Proof.
  induction s as [| c t IH]; simpl; [reflexivity |].
  destruct (p c) eqn:E; [exact IH | simpl; now rewrite E].
Qed.

Lemma drop_drop_while : forall p s, drop_while p (drop_while p s) = drop_while p s.
Proof.
  induction s as [| c t IH]; simpl; [reflexivity |].
  destruct (p c) eqn:E; [exact IH | simpl; now rewrite E].
Qed.

(** The pattern of a decimal, before a continuation that takes any
    state, takes the number at the head of the input. *)
Lemma unsigned_always : forall (f : mstate -> mstate) s n cs,
  rmatch (seq [Plus digit; Opt (chr "."); Star digit]) (MState n s cs)
         (fun st => Some (f st)) =
  match Spec.unsigned_at s with
  | Some (w, r) => Some (f (MState (n + String.length w) r cs))
  | None => None
  end.
Proof.
  intros f s n cs. cbn [seq rmatch rest pos caps]. unfold Spec.unsigned_at.
  destruct s as [| c t]; [reflexivity |].
  cbn [take_while drop_while]. destruct (digit c) eqn:D; [| reflexivity].
  cbn [is_empty].
  set (h := fun (m : nat) (r : string) (cs' : list (nat * string)) =>
              f (MState (m + String.length (take_while digit r))
                        (drop_while digit r) cs')).
  set (g := fun st : mstate =>
     match rest st with
     | String x r =>
         if chr "." x then h (S (pos st)) r (caps st)
         else h (pos st) (rest st) (caps st)
     | EmptyString => h (pos st) (rest st) (caps st)
     end).
  rewrite (@star_ext digit t (S n) cs _ (fun st => Some (g st))).
  - rewrite star_always. unfold g, h. cbn [rest pos caps].
    rewrite take_drop_while, drop_drop_while.
    destruct (drop_while digit t) as [| x r] eqn:E.
    + cbn [String.length]. do 3 f_equal. lia.
    + destruct (chr "." x) eqn:P.
      * cbn [String.length]. rewrite length_append. cbn [String.length].
        do 3 f_equal. lia.
      * cbn [String.length]. do 3 f_equal. lia.
  - intros st. unfold g, h. destruct st as [p0 r0 c0]. cbn [rest pos caps].
    destruct r0 as [| x r].
    + rewrite star_always. reflexivity.
    + destruct (chr "." x) eqn:P.
      * unfold step. cbn [pos rest caps]. rewrite star_always. reflexivity.
      * rewrite star_always. reflexivity.
Qed.

Lemma decimal_always : forall (f : mstate -> mstate) s n cs,
  rmatch decimal (MState n s cs) (fun st => Some (f st)) =
  match Spec.number_at s with
  | Some (w, r) => Some (f (MState (n + String.length w) r cs))
  | None => None
  end.
Proof.
  intros f s n cs. unfold decimal.
  change (seq [Opt (chr "-"); Plus digit; Opt (chr "."); Star digit])
    with (Seq (Opt (chr "-")) (seq [Plus digit; Opt (chr "."); Star digit])).
  cbn [rmatch rest]. unfold Spec.number_at.
  destruct s as [| c t].
  - apply (unsigned_always f "" n cs).
  - destruct (chr "-" c) eqn:M.
    + unfold step. cbn [pos caps]. rewrite unsigned_always.
      destruct (Spec.unsigned_at t) as [[w r] |].
      * cbn [String.length]. do 3 f_equal. lia.
      * rewrite unsigned_always. unfold Spec.unsigned_at. cbn [take_while].
        apply chr_true in M. subst c. reflexivity.
    + apply unsigned_always.
Qed.

(** The number at the head of a text is a decimal, and a whole one. *)
Lemma unsigned_at_spec : forall s w r,
  Spec.unsigned_at s = Some (w, r) ->
  s = w ++ r /\ Spec.unsigned_decimal w = true /\
  (forall c t, r = String c t -> Spec.unsigned_decimal (w ++ String c "") = false).
Proof.
  intros s w r H. unfold Spec.unsigned_at in H.
  destruct (is_empty (take_while digit s)) eqn:E; [discriminate |].
  pose proof (take_drop digit s) as TD.
  pose proof (take_while_all digit s) as TA.
  destruct (drop_while digit s) as [| c r0] eqn:D.
  - inversion H; subst w r; clear H. repeat split.
    + now rewrite append_nil_r in *.
    + unfold Spec.unsigned_decimal.
      rewrite forallb_take_all by exact TA. rewrite E.
      rewrite <- (append_nil_r (take_while digit s)) at 1.
      rewrite drop_while_app_all by exact TA. reflexivity.
    + discriminate.
  - pose proof (drop_while_head _ _ D) as Hc.
    destruct (chr "." c) eqn:P.
    + inversion H; subst w r; clear H.
      pose proof (take_drop digit r0) as TD0.
      pose proof (take_while_all digit r0) as TA0.
      repeat split.
      * rewrite append_assoc. cbn [append]. now rewrite TD0.
      * unfold Spec.unsigned_decimal.
        rewrite take_while_app_all by exact TA. cbn [take_while]. rewrite Hc.
        rewrite append_nil_r, E.
        rewrite drop_while_app_all by exact TA. cbn [drop_while]. rewrite Hc, P.
        now rewrite TA0.
      * intros x t Hr. unfold Spec.unsigned_decimal.
        rewrite !append_assoc. cbn [append].
        rewrite drop_while_app_all by exact TA. cbn [drop_while]. rewrite Hc, P.
        rewrite forallb_app. cbn [forallb].
        rewrite (drop_while_head _ _ Hr). cbn.
        now rewrite andb_false_r, andb_false_r.
    + inversion H; subst w r; clear H. repeat split.
      * now symmetry.
      * unfold Spec.unsigned_decimal.
        rewrite forallb_take_all by exact TA. rewrite E.
        rewrite <- (append_nil_r (take_while digit s)) at 1.
        rewrite drop_while_app_all by exact TA. reflexivity.
      * intros x t Hr. inversion Hr; subst x t; clear Hr.
        unfold Spec.unsigned_decimal.
        rewrite drop_while_app_all by exact TA. cbn [drop_while]. rewrite Hc, P.
        now rewrite andb_false_r.
Qed.

Lemma number_at_spec : forall s w r,
  Spec.number_at s = Some (w, r) ->
  s = w ++ r /\ Spec.is_decimal w = true /\ whole w r.
Proof.
  intros s w r H. unfold Spec.number_at in H.
  destruct s as [| c t]; [discriminate |].
  destruct (chr "-" c) eqn:M.
  - destruct (Spec.unsigned_at t) as [[u r'] |] eqn:U; [| discriminate].
    inversion H; subst w r'; clear H.
    apply unsigned_at_spec in U. destruct U as (E & D & W).
    repeat split.
    + cbn [append]. now rewrite E.
    + cbn [Spec.is_decimal]. now rewrite M.
    + intros x t' Hr. cbn [append Spec.is_decimal]. rewrite M. now apply (W x t').
  - apply unsigned_at_spec in H. destruct H as (E & D & W).
    assert (Hw : exists c' w', w = String c' w' /\ chr "-" c' = false).
    { destruct w as [| c' w']; [discriminate D |].
      cbn [append] in E. inversion E; subst c'. now exists c, w'. }
    destruct Hw as (c' & w' & -> & M').
    repeat split.
    + exact E.
    + cbn [Spec.is_decimal]. now rewrite M'.
    + intros x t' Hr. cbn [append Spec.is_decimal]. rewrite M'. now apply (W x t').
Qed.

End NumberFacts.

Module ExtractFacts.
Import Re ReSem Str StrFacts ReFacts ReSemFacts.
Import MarkerFacts DecimalFacts PairFacts Lib.

Section WithPlatform.
Context {P : Platform}.

Lemma replace_plus : forall s, replace re_plus " " s = Spec.plus_to_space s.
Proof.
  intros. unfold re_plus, Spec.plus_to_space. rewrite replace_Chr, <- subst_map.
  apply subst_ext. intros c. now destruct (chr "+" c).
Qed.

(** *** Strategy 1 *)

Lemma dirLoop_strategy1 : forall locs wps names,
  dirLoop locs wps names =
  match Spec.strategy1 locs with
  | Ok (ps, ns) => Ok ((wps ++ ps)%list, (names ++ ns)%list)
  | Throw e => Throw e
  | Hang => Hang
  end.
Proof.
  induction locs as [| loc locs IH]; intros wps names.
  - cbn. now rewrite !app_nil_r.
  - cbn [dirLoop]. unfold Spec.strategy1. cbn [flat_map List.filter List.map].
    unfold Spec.is_pair.
    destruct (match_ re_pair loc) as [m |] eqn:E.
    + apply match_pair_Some in E. rewrite E. cbn [negb].
      rewrite IH. unfold Spec.strategy1, Spec.is_pair.
      destruct (Spec.all_some _) as [ns |]; [| reflexivity].
      cbn [app]. now rewrite <- app_assoc.
    + apply match_pair_None in E. rewrite E. cbn [negb List.map Spec.all_some app].
      rewrite replace_plus.
      destruct (decodeURIComponent (Spec.plus_to_space loc)) as [n |]; [| reflexivity].
      cbn [orThrow bind]. rewrite IH. unfold Spec.strategy1, Spec.is_pair.
      destruct (Spec.all_some _) as [ns |]; [| reflexivity].
      cbn [option_map]. now rewrite <- app_assoc.
Qed.

Lemma match_dir : forall url,
  option_map (fun m => group 1 (groups m)) (match_ re_dir url) =
  Spec.after_marker "/maps/dir/" Spec.not_at url.
Proof. intros. apply (search_marker "/maps/dir/" 1 Spec.not_at url 0). Qed.

Lemma dirStage_strategy1 : forall url,
  dirStage url = Spec.strategy1 (Spec.path_segments url).
Proof.
  intros url. unfold dirStage, Spec.path_segments.
  rewrite <- match_dir.
  destruct (match_ re_dir url) as [m |]; cbn [option_map].
  - rewrite dirLoop_strategy1.
    destruct (Spec.strategy1 _) as [[ps ns] | |]; reflexivity.
  - reflexivity.
Qed.

(** *** The data parameter *)

Lemma match_data_path : forall url,
  option_map (fun m => group 1 (groups m)) (match_ re_data_path url) =
  Spec.after_marker "/data=" Spec.not_question url.
Proof. intros. apply (search_marker "/data=" 1 Spec.not_question url 0). Qed.

Lemma dataStage_parameter : forall u url,
  dataStage u url = Spec.data_parameter u url.
Proof.
  intros u url. unfold dataStage, Spec.data_parameter.
  rewrite <- match_data_path.
  destruct (searchParams_get u "data") as [[| c d] |]; cbn [truthy is_empty negb];
    try reflexivity;
    destruct (match_ re_data_path url) as [m |]; cbn [option_map]; try reflexivity;
    destruct (decodeURIComponent _); reflexivity.
Qed.

Lemma coordRegex_consuming : consuming coordRegex = true.
Proof. reflexivity. Qed.

Lemma exec_coordRegex : forall d, exists ms, exec_all coordRegex d = Some ms.
Proof.
  intros d. pose proof (@exec_from_total coordRegex coordRegex_consuming d 0 0) as T.
  unfold exec_all. destruct (exec_from coordRegex 0 0 d) as [ms |]; [| contradiction].
  now exists ms.
Qed.

Lemma nameAt_stream_name : forall names len i,
  nameAt names len i = Spec.stream_name names len i.
Proof.
  intros names len i. unfold nameAt, Spec.stream_name.
  destruct (i <? List.length names) eqn:E.
  - apply Nat.ltb_lt in E.
    destruct (nth_error names i) as [n |] eqn:N.
    + now apply nth_error_nth.
    + apply nth_error_None in N. lia.
  - apply Nat.ltb_ge in E. apply nth_error_None in E. now rewrite E.
Qed.

Lemma dataLoop_stream : forall names len ms i acc,
  dataLoop names len i (List.map Spec.coord_of ms) acc =
  (acc ++ Spec.stream_from names len i ms)%list.
Proof.
  induction ms as [| m ms IH]; intros i acc; cbn.
  - now rewrite app_nil_r.
  - rewrite IH, nameAt_stream_name, <- app_assoc. reflexivity.
Qed.

Lemma valid_origin : forall w, valid w = negb (Spec.origin w).
Proof.
  intros w. unfold valid, Spec.origin.
  now destruct (isZero (lat w)), (isZero (lng w)).
Qed.

Lemma filter_valid : forall ws,
  List.filter valid ws = List.filter (fun w => negb (Spec.origin w)) ws.
Proof. intros. apply List.filter_ext. intros; apply valid_origin. Qed.

(** *** The route name *)

Lemma nth_last : forall (l : list string) d,
  nth (List.length l - 1) l d = List.last l d.
Proof.
  induction l as [| x l IH]; intros d; [reflexivity |].
  destruct l as [| y l]; [reflexivity |].
  cbn [List.length Nat.sub] in *. rewrite Nat.sub_0_r in *.
  change (nth (S (List.length l)) (x :: y :: l) d) with (nth (List.length l) (y :: l) d).
  rewrite IH. reflexivity.
Qed.

Lemma nth_error_last_rev : forall (A : Type) (l : list A),
  nth_error l (List.length l - 1) = hd_error (rev l).
Proof.
  intros A l. destruct (rev l) as [| x r] eqn:E.
  - apply (f_equal (@rev A)) in E. rewrite rev_involutive in E. now subst l.
  - apply (f_equal (@rev A)) in E. rewrite rev_involutive in E. subst l.
    cbn [rev hd_error]. rewrite length_app. cbn [List.length].
    rewrite nth_error_app2 by lia.
    replace (List.length (rev r) + 1 - 1 - List.length (rev r)) with 0 by lia.
    reflexivity.
Qed.

Lemma routeNameOf_route_name : forall names ws,
  routeNameOf names ws = Spec.route_name names ws.
Proof.
  intros names ws. unfold routeNameOf, Spec.route_name.
  destruct names as [| n0 [| n1 names]].
  - cbn [List.length Nat.leb].
    destruct ws as [| w0 [| w1 ws]]; try reflexivity.
    change (2 <=? List.length (w0 :: w1 :: ws)) with true. cbv iota.
    rewrite nth_error_last_rev. unfold Spec.first_name, Spec.last_name.
    cbn [nth_error]. now destruct (rev (w0 :: w1 :: ws)).
  - cbn [List.length Nat.leb].
    destruct ws as [| w0 [| w1 ws]]; try reflexivity.
    change (2 <=? List.length (w0 :: w1 :: ws)) with true. cbv iota.
    rewrite nth_error_last_rev. unfold Spec.first_name, Spec.last_name.
    cbn [nth_error]. now destruct (rev (w0 :: w1 :: ws)).
  - change (2 <=? List.length (n0 :: n1 :: names)) with true. cbv iota.
    rewrite nth_last. reflexivity.
Qed.

(** *** The whole extraction *)

Lemma parse_of_candidates : forall url,
  parseGoogleMapsUrl url =
  match candidates url with
  | Ok (ws, names) =>
      match List.filter (fun w => negb (Spec.origin w)) ws with
      | [] => Throw (Error errorMessage)
      | v :: vs =>
          Ok {| waypoints := v :: vs;
                routeName := Spec.route_name names (v :: vs) |}
      end
  | Throw e => Throw e
  | Hang => Hang
  end.
Proof.
  intros url. unfold parseGoogleMapsUrl.
  destruct (candidates url) as [[ws names] | e |]; cbn [bind]; try reflexivity.
  rewrite filter_valid.
  destruct (List.filter _ ws) as [| v vs]; [reflexivity |].
  cbn [List.length Nat.eqb]. now rewrite routeNameOf_route_name.
Qed.

Lemma candidates_names : forall url ws names,
  candidates url = Ok (ws, names) ->
  exists wps, Spec.strategy1 (Spec.path_segments url) = Ok (wps, names).
Proof.
  intros url ws names H. unfold candidates in H.
  destruct (URL_new url) as [u |]; [| discriminate]. cbn [orThrow bind] in H.
  rewrite dirStage_strategy1 in H.
  destruct (Spec.strategy1 (Spec.path_segments url)) as [[wps ns] | e |];
    [| discriminate | discriminate].
  cbn [bind] in H.
  destruct (dataStage u url) as [dp | e |]; [| discriminate | discriminate].
  cbn [bind] in H.
  destruct (truthy dp).
  - destruct (dataCoordsOf (or_else dp "")) as [dc | e |]; [| discriminate | discriminate].
    cbn [bind] in H.
    destruct (0 <? List.length dc); cbn [bind] in H; inversion H; subst; now exists wps.
  - cbn [bind] in H. inversion H; subst. now exists wps.
Qed.

Lemma candidates_stream : forall url u wps names d ms,
  URL_new url = Some u ->
  Spec.strategy1 (Spec.path_segments url) = Ok (wps, names) ->
  Spec.data_parameter u url = Ok (Some d) ->
  exec_all coordRegex d = Some ms ->
  ms <> [] ->
  candidates url = Ok (Spec.stream_waypoints names ms, names).
Proof.
  intros url u wps names d ms HU HS HD HE HN. unfold candidates.
  rewrite HU. cbn [orThrow bind]. rewrite dirStage_strategy1, HS. cbn [bind].
  rewrite dataStage_parameter, HD. cbn [bind].
  assert (T : truthy (Some d) = true).
  { destruct d as [| c d]; [| reflexivity].
    cbv in HE. inversion HE. congruence. }
  rewrite T. assert (O : or_else (Some d) "" = d).
  { destruct d; [discriminate | reflexivity]. }
  rewrite O. unfold dataCoordsOf. rewrite HE. cbn [bind].
  fold Spec.coord_of. rewrite length_map.
  destruct ms as [| m ms]; [congruence |].
  change (0 <? List.length (m :: ms)) with true. cbv iota. cbn [bind].
  rewrite dataLoop_stream. cbn [app].
  unfold Spec.stream_waypoints.
  destruct (match_ re_place url); reflexivity.
Qed.

Lemma candidates_never_hang : forall url, candidates url <> Hang.
Proof.
  intros url. unfold candidates.
  destruct (URL_new url) as [u |]; [| discriminate]. cbn [orThrow bind].
  rewrite dirStage_strategy1. unfold Spec.strategy1.
  destruct (Spec.all_some _) as [ns |]; [| discriminate]. cbn [bind].
  rewrite dataStage_parameter.
  destruct (Spec.data_parameter u url) as [dp | e |] eqn:D; [| discriminate |].
  - cbn [bind]. destruct (truthy dp).
    + unfold dataCoordsOf.
      destruct (exec_coordRegex (or_else dp "")) as (ms & ->). cbn [bind].
      destruct (0 <? _); cbn [bind]; discriminate.
    + cbn [bind]. discriminate.
  - unfold Spec.data_parameter in D.
    destruct (searchParams_get u "data") as [[| c d] |];
      try discriminate;
      destruct (Spec.after_marker _ _ _); try discriminate;
      destruct (decodeURIComponent _); discriminate.
Qed.

Theorem parseGoogleMapsUrl_returns_or_throws : forall url,
  parseGoogleMapsUrl url <> Hang.
Proof.
  intros url. rewrite parse_of_candidates.
  pose proof (candidates_never_hang url) as H.
  destruct (candidates url) as [[ws names] | e |]; [| discriminate | contradiction].
  destruct (List.filter _ ws); discriminate.
Qed.



End WithPlatform.
End ExtractFacts.

Module StreamFacts.
Import Re ReSem Str StrFacts ReFacts ReSemFacts.
Import MarkerFacts DecimalFacts PairFacts NumberFacts Lib Stream.

Lemma Matches_lit : forall mk st st',
  Matches (lit mk) st st' ->
  rest st = mk ++ rest st' /\ pos st' = pos st + String.length mk /\
  caps st' = caps st.
Proof.
  induction mk as [| c mk IH]; intros st st' M; cbn [lit] in M.
  - inversion M; subst. cbn. repeat split; lia.
  - inversion M as [| | | | | | | r1 r2 s0 st1 s2 M1 M2 | | | | |]; subst; clear M.
    inversion M1 as [| p c0 t s0 Rc Pc | | | | | | | | | | |]; subst; clear M1.
    apply chr_true in Pc. subst c0.
    apply IH in M2. destruct M2 as (R & N & C). cbn [step rest pos caps] in R, N, C.
    repeat split.
    + rewrite Rc. cbn [append]. now rewrite R.
    + cbn [String.length]. lia.
    + exact C.
Qed.

(** A match of the pattern of the stream is a pair, its second number a
    whole one. *)
Lemma coord_sound : forall n s m,
  at_ coordRegex n s = Some m ->
  index m = n /\
  exists a b post,
    s = "!1d" ++ a ++ "!2d" ++ b ++ post /\
    groups m = [(2, b); (1, a)] /\
    last m = n + 3 + String.length a + 3 + String.length b /\
    Spec.is_decimal a = true /\ Spec.is_decimal b = true /\ whole b post.
Proof.
  intros n s m H. unfold at_ in H.
  destruct (rmatch coordRegex (MState n s []) Some) as [res |] eqn:R; [| discriminate].
  inversion H; subst m; clear H. cbn [index last groups]. split; [reflexivity |].
  unfold coordRegex in R.
  change (seq [lit "!1d"; Group 1 decimal; lit "!2d"; Group 2 decimal])
    with (Seq (lit "!1d") (Seq (Group 1 decimal) (Seq (lit "!2d") (Group 2 decimal))))
    in R.
  cbn [rmatch] in R. rewrite rmatch_lit in R. cbn [rest pos caps String.length] in R.
  destruct (strip_prefix "!1d" s) as [t1 |] eqn:S1; [| discriminate].
  apply strip_prefix_Some in S1.
  change (rmatch decimal ?st ?k) with (rmatch decimal st k) in R.
  match type of R with
  | rmatch decimal ?st ?k = _ =>
      pose proof (@rmatch_sound (Group 1 decimal) st
        (fun st2 => rmatch (lit "!2d") st2
           (fun st3 => rmatch (Group 2 decimal) st3 Some)) res) as Snd
  end.
  cbn [rmatch] in Snd. specialize (Snd R).
  destruct Snd as (st2 & M1 & K2).
  apply Group_decimal in M1. destruct M1 as (a & Ra & Na & Ca & Da).
  cbn [rest pos caps] in Ra, Na, Ca.
  rewrite rmatch_lit in K2.
  destruct (strip_prefix "!2d" (rest st2)) as [t3 |] eqn:S3; [| discriminate].
  apply strip_prefix_Some in S3. cbn [String.length] in K2.
  rewrite (decimal_always
             (fun st' => capture 2 (MState (pos st2 + 3) t3 (caps st2)) st')) in K2.
  destruct (Spec.number_at t3) as [[b post] |] eqn:Nb; [| discriminate].
  inversion K2; subst res; clear K2.
  apply number_at_spec in Nb. destruct Nb as (Eb & Db & Wb).
  exists a, b, post. unfold capture. cbn [pos rest caps].
  repeat split; try assumption.
  - rewrite S1, Ra, S3, Eb. reflexivity.
  - rewrite Ca.
    replace (pos st2 + 3 + String.length b - (pos st2 + 3)) with (String.length b) by lia.
    rewrite Eb, substring_prefix. reflexivity.
  - lia.
Qed.

Lemma in_order_weaken : forall ms a b, b <= a -> in_order a ms -> in_order b ms.
Proof.
  intros [| m ms] a b L H; [exact I |].
  cbn [in_order] in *. destruct H as (H1 & H2 & H3). repeat split; [lia | lia | exact H3].
Qed.

(** The loop returns matches, each found where the one before ended or
    after. *)
Lemma exec_from_sound : forall r s pre n skip ms,
  String.length pre = n ->
  exec_from r n skip s = Some ms ->
  Forall (fun m => exists pre' s',
            pre ++ s = pre' ++ s' /\ String.length pre' = index m /\
            at_ r (index m) s' = Some m) ms /\
  in_order (n + skip) ms.
Proof.
  intros r. induction s as [| c t IH]; intros pre n skip ms L H.
  - destruct skip; cbn [exec_from] in H.
    + destruct (at_ r n "") as [m |] eqn:A.
      * pose proof (proj1 (at_sound _ _ _ A)) as Im.
        destruct (last m - n) eqn:D; [discriminate |].
        inversion H; subst ms; clear H. split.
        -- constructor; [| constructor].
           exists pre, "". rewrite Im. repeat split; assumption.
        -- cbn [in_order]. repeat split; lia.
      * inversion H; subst ms. split; [constructor | exact I].
    + inversion H; subst ms. split; [constructor | exact I].
  - assert (L' : String.length (pre ++ String c "") = S n).
    { rewrite length_append. cbn. lia. }
    assert (E : (pre ++ String c "") ++ t = pre ++ String c t).
    { now rewrite append_assoc. }
    destruct skip; cbn [exec_from] in H.
    + destruct (at_ r n (String c t)) as [m |] eqn:A.
      * pose proof (proj1 (at_sound _ _ _ A)) as Im.
        destruct (last m - n) as [| k] eqn:D; [discriminate |].
        destruct (exec_from r (S n) k t) as [ms' |] eqn:X; [| discriminate].
        inversion H; subst ms; clear H.
        destruct (IH _ _ _ _ L' X) as (F & O). rewrite E in F. split.
        -- constructor; [| exact F].
           exists pre, (String c t). rewrite Im. repeat split; assumption.
        -- cbn [in_order]. repeat split; [lia | lia |].
           replace (last m) with (S n + k) by lia. exact O.
      * destruct (IH _ _ _ _ L' H) as (F & O). rewrite E in F.
        split; [exact F |]. apply in_order_weaken with (a := S n + 0); [lia | exact O].
    + destruct (IH _ _ _ _ L' H) as (F & O). rewrite E in F.
      split; [exact F |]. now replace (n + S skip) with (S n + skip) by lia.
Qed.

(** The matches of the [exec] loop on a stream are pairs of the stream,
    from left to right. *)
Theorem exec_all_occurrences : forall d ms,
  exec_all coordRegex d = Some ms ->
  Forall (occurrence d) ms /\ in_order 0 ms.
Proof.
  intros d ms H. unfold exec_all in H.
  destruct (@exec_from_sound coordRegex d "" 0 0 ms eq_refl H) as (F & O).
  split; [| exact O].
  apply Forall_forall. intros m Hm.
  rewrite Forall_forall in F. destruct (F m Hm) as (pre' & s' & E & L & A).
  cbn [append] in E. apply coord_sound in A.
  destruct A as (_ & a & b & post & Es & G & La & Da & Db & Wb).
  unfold occurrence. rewrite G. cbn [group Nat.eqb].
  exists pre', post. repeat split; try assumption.
  now rewrite E, Es.
Qed.

End StreamFacts.

Module ScanFacts.
Import Re ReSem Str StrFacts ReFacts ReSemFacts.
Import MarkerFacts DecimalFacts PairFacts Lib Stream StreamFacts.

(** Every index where the pattern matches, at or after the place the
    loop starts from, lies in a match the loop returns. *)
Lemma exec_from_covers : forall r s n skip ms,
  exec_from r n skip s = Some ms ->
  forall z s', s = z ++ s' -> skip <= String.length z ->
    at_ r (n + String.length z) s' <> None ->
    exists m, In m ms /\ index m <= n + String.length z < last m.
Proof.
  intros r. induction s as [| c t IH]; intros n skip ms H z s' E L A.
  - destruct z as [| x z]; [| discriminate]. cbn in E. subst s'.
    assert (skip = 0) by (cbn in L; lia). subst skip.
    cbn [String.length] in A. rewrite Nat.add_0_r in A.
    cbn [exec_from] in H.
    destruct (at_ r n "") as [m |] eqn:Am; [| contradiction].
    pose proof (proj1 (at_sound _ _ _ Am)) as Im.
    destruct (last m - n) eqn:D; [discriminate |].
    inversion H; subst ms. exists m. cbn. split; [now left | lia].
  - destruct skip as [| k]; cbn [exec_from] in H.
    + destruct (at_ r n (String c t)) as [m |] eqn:Am.
      * pose proof (proj1 (at_sound _ _ _ Am)) as Im.
        destruct (last m - n) as [| k] eqn:D; [discriminate |].
        destruct (exec_from r (S n) k t) as [ms' |] eqn:X; [| discriminate].
        inversion H; subst ms; clear H.
        destruct z as [| x z].
        -- exists m. cbn. split; [now left | lia].
        -- cbn in E. inversion E; subst x t; clear E.
           cbn [String.length] in *.
           destruct (le_lt_dec k (String.length z)) as [Hk | Hk].
           ++ destruct (IH (S n) k ms' X z s' eq_refl Hk) as (m' & In' & B).
              { now replace (S n + String.length z) with (n + S (String.length z)) by lia. }
              exists m'. split; [now right | lia].
           ++ exists m. split; [now left | lia].
      * destruct z as [| x z].
        -- cbn in E. subst s'. cbn [String.length] in A.
           rewrite Nat.add_0_r in A. contradiction.
        -- cbn in E. inversion E; subst x t; clear E. cbn [String.length] in *.
           destruct (IH (S n) 0 ms H z s' eq_refl (Nat.le_0_l _)) as (m' & In' & B).
           { now replace (S n + String.length z) with (n + S (String.length z)) by lia. }
           exists m'. split; [exact In' | lia].
    + destruct z as [| x z]; [cbn in L; lia |].
      cbn in E. inversion E; subst x t; clear E. cbn [String.length] in *.
      destruct (IH (S n) k ms H z s' eq_refl ltac:(lia)) as (m' & In' & B).
      { now replace (S n + String.length z) with (n + S (String.length z)) by lia. }
      exists m'. split; [exact In' | lia].
Qed.

Lemma get_app_r : forall p s k, get (String.length p + k) (p ++ s) = get k s.
Proof.
  intros p s k. rewrite Nat.add_comm. symmetry. apply append_correct2.
Qed.

Lemma get_app_l : forall p s k, k < String.length p -> get k (p ++ s) = get k p.
Proof. intros p s k H. symmetry. now apply append_correct1. Qed.

Lemma forallb_get : forall (p : ascii -> bool) s k c,
  forallb p s = true -> get k s = Some c -> p c = true.
Proof.
  induction s as [| x s IH]; intros k c H G; [discriminate |].
  cbn [forallb] in H. apply andb_true_iff in H. destruct H as [Hx Hs].
  destruct k as [| k]; cbn [get] in G.
  - inversion G; now subst.
  - now apply (IH k).
Qed.

Lemma digit_not_bang : forall c, digit c = true -> not_bang c = true.
Proof. intros c; destruct c as [[] [] [] [] [] [] [] []]; vm_compute; congruence. Qed.

Lemma unsigned_no_bang : forall u, Spec.unsigned_decimal u = true ->
  forallb not_bang u = true.
Proof.
  intros u H. unfold Spec.unsigned_decimal in H.
  apply andb_true_iff in H. destruct H as [_ H].
  rewrite <- (take_drop digit u). rewrite forallb_app.
  apply andb_true_iff. split.
  - apply forallb_impl with (p := digit); [apply digit_not_bang | apply take_while_all].
  - destruct (drop_while digit u) as [| x f]; [reflexivity |].
    apply andb_true_iff in H. destruct H as [Hx Hf].
    apply chr_true in Hx. subst x. cbn [forallb]. apply andb_true_iff. split; [reflexivity |].
    apply forallb_impl with (p := digit); [apply digit_not_bang | exact Hf].
Qed.

Lemma decimal_no_bang : forall w, Spec.is_decimal w = true ->
  forallb not_bang w = true.
Proof.
  intros [| c u] H; [reflexivity |]. cbn [Spec.is_decimal] in H.
  destruct (chr "-" c) eqn:E.
  - apply chr_true in E. subst c. cbn [forallb].
    apply andb_true_iff. split; [reflexivity | now apply unsigned_no_bang].
  - now apply unsigned_no_bang.
Qed.

(** No pair starts inside a pair. *)
Lemma no_start_inside : forall a b post k,
  forallb not_bang a = true -> forallb not_bang b = true ->
  0 < k -> k < 3 + String.length a + 3 + String.length b ->
  get k ("!1d" ++ a ++ "!2d" ++ b ++ post) = Some "!"%char ->
  get (S k) ("!1d" ++ a ++ "!2d" ++ b ++ post) = Some "1"%char ->
  False.
Proof.
  intros a b post k Ha Hb K0 K G G1.
  destruct k as [| [| [| k]]]; [lia | discriminate G | discriminate G |].
  cbn [append get] in G, G1.
  destruct (lt_dec k (String.length a)) as [L | L].
  - rewrite get_app_l in G by exact L.
    apply (forallb_get _ _ _ Ha) in G. discriminate G.
  - assert (E : k = String.length a + (k - String.length a)) by lia.
    assert (E1 : S k = String.length a + S (k - String.length a)) by lia.
    rewrite E in G. rewrite E1 in G1. rewrite get_app_r in G, G1.
    remember (k - String.length a) as j eqn:J.
    destruct j as [| [| [| j]]];
      [discriminate G1 | discriminate G | discriminate G |].
    cbn [get] in G.
    rewrite get_app_l in G by lia.
    apply (forallb_get _ _ _ Hb) in G. discriminate G.
Qed.

Lemma Matches_lit_intro : forall mk n t cs,
  Matches (lit mk) (MState n (mk ++ t) cs) (MState (n + String.length mk) t cs).
Proof.
  induction mk as [| c mk IH]; intros n t cs; cbn [lit append String.length].
  - rewrite Nat.add_0_r. apply MEps.
  - eapply MSeq.
    + eapply MChr; [reflexivity | apply chr_refl].
    + unfold step; cbn [pos rest caps]. rewrite Nat.add_succ_r. apply (IH (S n)).
Qed.

(** A pair of the stream is matched where it stands. *)
Lemma coord_complete : forall n a b post,
  Spec.is_decimal a = true -> Spec.is_decimal b = true ->
  at_ coordRegex n ("!1d" ++ a ++ "!2d" ++ b ++ post) <> None.
Proof.
  intros n a b post Da Db.
  apply at_complete with
    (st' := MState (n + 3 + String.length a + 3 + String.length b) post [(2, b); (1, a)]).
  unfold coordRegex. cbn [seq].
  eapply MSeq; [apply (Matches_lit_intro "!1d") |].
  eapply MSeq; [apply (Group_decimal_intro 1 a _ _ _ Da) |].
  eapply MSeq; [apply (Matches_lit_intro "!2d") |].
  apply (Group_decimal_intro 2 b _ post _ Db).
Qed.

(** Every pair of the stream starts a match of the loop. *)
Theorem exec_all_complete : forall d ms,
  exec_all coordRegex d = Some ms -> complete d ms.
Proof.
  intros d ms H before a b post E Da Db. unfold exec_all in H.
  destruct (@exec_from_covers coordRegex d 0 0 ms H before _ E (Nat.le_0_l _))
    as (m & Hin & Lo & Hi).
  { apply coord_complete; assumption. }
  exists m. split; [exact Hin |]. cbn [Nat.add] in Lo, Hi.
  destruct (Nat.eq_dec (index m) (String.length before)) as [Q | Q]; [exact Q |].
  exfalso.
  destruct (@exec_from_sound coordRegex d "" 0 0 ms eq_refl H) as (F & _).
  rewrite Forall_forall in F. destruct (F m Hin) as (pre' & s' & E' & L' & A').
  cbn [append] in E'. apply coord_sound in A'.
  destruct A' as (_ & a' & b' & post' & Es & G & La & Da' & Db' & _).
  assert (K : String.length before = String.length pre' + (String.length before - index m))
    by lia.
  assert (G0 : get (String.length before) d = Some "!"%char).
  { rewrite E. rewrite <- (Nat.add_0_r (String.length before)), get_app_r. reflexivity. }
  assert (G1 : get (S (String.length before)) d = Some "1"%char).
  { rewrite E. rewrite <- (Nat.add_1_r (String.length before)), get_app_r. reflexivity. }
  rewrite E', Es in G0, G1. rewrite K in G0.
  replace (S (String.length before))
    with (String.length pre' + S (String.length before - index m)) in G1 by lia.
  rewrite get_app_r in G0, G1.
  apply (@no_start_inside a' b' post' (String.length before - index m));
    try assumption; try lia; now apply decimal_no_bang.
Qed.

End ScanFacts.

Module GpxFacts.
Import Str StrFacts EscapeFacts Lib.

Lemma concat_cons : forall x xs, String.concat "" (x :: xs) = x ++ String.concat "" xs.
Proof.
  intros x [| y ys]; cbn [String.concat]; [now rewrite append_nil_r | reflexivity].
Qed.

Section WithPlatform.
Context {P : Platform}.

Lemma gpxHead_open : forall n,
  gpxHead n = Spec.doc_open ++ escapeXml n ++ Spec.doc_mid.
Proof. reflexivity. Qed.

Lemma gpxTail_close : gpxTail = Spec.doc_close.
Proof. reflexivity. Qed.

Lemma q_append : forall x rest, q x ++ rest = String quot (x ++ String quot rest).
Proof. intros. unfold q. cbn [append]. now rewrite append_assoc. Qed.

Lemma gpxPoint_written : forall w i,
  gpxPoint w i = Spec.point_text (Spec.written (S i, w)).
Proof.
  intros w i. unfold gpxPoint, Spec.written, Spec.point_text, Spec.point_name.
  cbn [fst snd]. rewrite escapeXml_escaped, Nat.add_1_r.
  rewrite !q_append. reflexivity.
Qed.

(** The loop appends the points in order, numbered from the index. *)
Lemma forEachPoint_concat : forall ws i acc,
  forEachPoint ws i acc =
  acc ++ String.concat ""
           (List.map Spec.point_text
              (List.map Spec.written (Spec.numbered (S i) ws))).
Proof.
  induction ws as [| w ws IH]; intros i acc; cbn [forEachPoint Spec.numbered List.map].
  - cbn. now rewrite append_nil_r.
  - rewrite IH, concat_cons, gpxPoint_written, append_assoc. reflexivity.
Qed.

Lemma generateGpx_document : forall r o,
  generateGpx r o =
  Spec.document (Spec.escaped (or_else o (routeName r)))
                (List.map Spec.written (Spec.numbered 1 (waypoints r))).
Proof.
  intros r o. unfold generateGpx, Spec.document.
  rewrite forEachPoint_concat, gpxHead_open, gpxTail_close, escapeXml_escaped.
  now rewrite !append_assoc.
Qed.

Lemma numbered_length : forall (ws : list Coordinate) i,
  List.length (Spec.numbered i ws) = List.length ws.
Proof. induction ws as [| w ws IH]; intros; cbn; [reflexivity | now rewrite IH]. Qed.

Lemma numbered_snd : forall (ws : list Coordinate) i,
  List.map snd (Spec.numbered i ws) = ws.
Proof. induction ws as [| w ws IH]; intros; cbn; [reflexivity | now rewrite IH]. Qed.

End WithPlatform.
End GpxFacts.

Module XmlFacts.
Import Str StrFacts Xml.

Lemma run_app : forall a b l, run (a ++ b) l = run b (run a l).
Proof. induction a as [| c a IH]; intros; cbn; [reflexivity | apply IH]. Qed.

Lemma normalize_plain : forall s,
  forallb (fun c => negb (chr cr c)) s = true -> normalize_eol s = s.
Proof.
  induction s as [| c t IH]; cbn; [reflexivity |].
  intros H. apply andb_true_iff in H. destruct H as [E H].
  apply negb_true_iff in E. rewrite E. now rewrite IH.
Qed.

Lemma text_of_cons : forall s a,
  text_of (List.rev (list_ascii_of_string s) ++ a)%list = text_of a ++ s.
Proof.
  intros s a. unfold text_of. rewrite rev_app_distr, rev_involutive.
  induction (List.rev a) as [| x l IH]; cbn.
  - apply string_of_list_ascii_of_string.
  - now rewrite IH.
Qed.

Lemma text_of_string : forall s,
  text_of (List.rev (list_ascii_of_string s)) = s.
Proof.
  intros s. rewrite <- (app_nil_r (List.rev _)). now rewrite text_of_cons.
Qed.

(** Character data: an escaped text is read as the text. *)
Lemma run_entity : forall c acc evs,
  xml_char c = true ->
  run (Spec.xml_entity c) (Lexer (Content acc) evs) = Lexer (Content (c :: acc)) evs.
Proof.
  intros c acc evs H.
  destruct c as [[] [] [] [] [] [] [] []];
    try discriminate H; reflexivity.
Qed.

Lemma run_escaped : forall s acc evs,
  forallb xml_char s = true ->
  run (Spec.escaped s) (Lexer (Content acc) evs) =
  Lexer (Content (List.rev (list_ascii_of_string s) ++ acc)%list) evs.
Proof.
  induction s as [| c t IH]; intros acc evs H; cbn [forallb] in H.
  - reflexivity.
  - apply andb_true_iff in H. destruct H as [E H].
    unfold Spec.escaped. cbn [subst]. rewrite run_app, run_entity by exact E.
    fold (Spec.escaped t). rewrite IH by exact H.
    cbn [list_ascii_of_string List.rev]. now rewrite <- app_assoc.
Qed.

(** An attribute value without markup is read as it is. *)
Lemma run_attr_char : forall c n attrs a v evs,
  attr_plain c = true ->
  next (AttrValue n attrs a v) evs c = Lexer (AttrValue n attrs a (c :: v)) evs.
Proof.
  intros c n attrs a v evs H.
  destruct c as [[] [] [] [] [] [] [] []];
    try discriminate H; reflexivity.
Qed.

Lemma run_attr : forall s n attrs a v evs,
  forallb attr_plain s = true ->
  run s (Lexer (AttrValue n attrs a v) evs) =
  Lexer (AttrValue n attrs a (List.rev (list_ascii_of_string s) ++ v)%list) evs.
Proof.
  induction s as [| c t IH]; intros n attrs a v evs H; cbn [forallb] in H.
  - reflexivity.
  - apply andb_true_iff in H. destruct H as [E H].
    cbn [run lmode events]. rewrite run_attr_char by exact E. rewrite IH by exact H.
    cbn [list_ascii_of_string List.rev]. now rewrite <- app_assoc.
Qed.

End XmlFacts.

Module ReadFacts.
Import Str StrFacts Xml XmlFacts Events.

(** The document starts with the declaration. *)
Lemma strip_prefix_append : forall pre a t b,
  strip_prefix pre a = Some t -> strip_prefix pre (a ++ b) = Some (t ++ b).
Proof.
  intros pre a t b H. apply strip_prefix_Some in H. subst a.
  rewrite append_assoc. apply strip_prefix_app.
Qed.

Lemma run_doc_open : exists body,
  strip_prefix declaration Spec.doc_open = Some body /\
  run body (Lexer (Content []) []) =
  Lexer (Content [])
        (List.rev [ Chars nl; STag "gpx" gpx_attrs;
                    Chars (nl ++ "  "); STag "trk" [];
                    Chars (nl ++ "    "); STag "name" [] ]).
Proof. eexists. split; vm_compute; reflexivity. Qed.

Lemma run_doc_mid : forall acc evs,
  run Spec.doc_mid (Lexer (Content acc) evs) =
  Lexer (Content [lf])
        (STag "trkseg" [] :: Chars (nl ++ "    ") :: ETag "name" ::
         Chars (text_of acc) :: evs).
Proof. reflexivity. Qed.

Lemma run_pt_open : forall evs,
  run Spec.pt_open (Lexer (Content [lf]) evs) =
  Lexer (AttrValue "trkpt" [] "lat" []) (Chars (nl ++ "      ") :: evs).
Proof. reflexivity. Qed.

Lemma run_pt_lon : forall v evs,
  run Spec.pt_lon (Lexer (AttrValue "trkpt" [] "lat" v) evs) =
  Lexer (AttrValue "trkpt" [("lat", text_of v)] "lon" []) evs.
Proof. reflexivity. Qed.

Lemma run_pt_name : forall la v evs,
  run Spec.pt_name (Lexer (AttrValue "trkpt" [("lat", la)] "lon" v) evs) =
  Lexer (Content [])
        (STag "name" [] :: Chars (nl ++ "        ") ::
         STag "trkpt" [("lat", la); ("lon", text_of v)] :: evs).
Proof. reflexivity. Qed.

Lemma run_pt_close : forall acc evs,
  run Spec.pt_close (Lexer (Content acc) evs) =
  Lexer (Content [lf])
        (ETag "trkpt" :: Chars (nl ++ "      ") :: ETag "name" ::
         Chars (text_of acc) :: evs).
Proof. reflexivity. Qed.

Lemma run_doc_close : forall evs,
  run Spec.doc_close (Lexer (Content [lf]) evs) =
  Lexer (Content [lf]) (List.rev (List.removelast close_events) ++ evs)%list.
Proof. reflexivity. Qed.

Lemma plain_xml_char : forall s, forallb plain s = true -> forallb xml_char s = true.
Proof.
  apply forallb_impl. intros c H. unfold plain in H.
  now apply andb_true_iff in H.
Qed.

Lemma run_point : forall p evs,
  plain_point p = true ->
  run (Spec.point_text (escape_point p)) (Lexer (Content [lf]) evs) =
  Lexer (Content [lf]) (List.rev (point_events p) ++ evs)%list.
Proof.
  intros [[la lo] n] evs H. unfold plain_point in H. cbn [fst snd] in H.
  apply andb_true_iff in H. destruct H as [H Hn].
  apply andb_true_iff in H. destruct H as [Hla Hlo].
  unfold escape_point, Spec.point_text. cbn [fst snd].
  rewrite run_app, run_pt_open.
  rewrite run_app, run_attr by exact Hla.
  rewrite run_app, run_pt_lon.
  rewrite run_app, run_attr by exact Hlo.
  rewrite run_app, run_pt_name.
  rewrite run_app, run_escaped by (now apply plain_xml_char).
  rewrite run_pt_close.
  rewrite !app_nil_r, !text_of_string. reflexivity.
Qed.

Lemma run_points : forall ps evs,
  List.forallb plain_point ps = true ->
  run (String.concat "" (List.map Spec.point_text (List.map escape_point ps)))
      (Lexer (Content [lf]) evs) =
  Lexer (Content [lf]) (List.rev (List.flat_map point_events ps) ++ evs)%list.
Proof.
  induction ps as [| p ps IH]; intros evs H.
  - reflexivity.
  - cbn [List.forallb] in H. apply andb_true_iff in H. destruct H as [Hp H].
    cbn [List.map flat_map]. rewrite GpxFacts.concat_cons, run_app.
    rewrite run_point by exact Hp. rewrite IH by exact H.
    now rewrite rev_app_distr, <- app_assoc.
Qed.

Lemma run_document : forall name ps,
  forallb plain name = true ->
  List.forallb plain_point ps = true ->
  exists body,
    strip_prefix declaration
      (Spec.document (Spec.escaped name) (List.map escape_point ps)) = Some body /\
    run body (Lexer (Content []) []) =
    Lexer (Content [lf])
          (List.rev (open_events name ++ List.flat_map point_events ps ++
                     List.removelast close_events)%list).
Proof.
  intros name ps Hn Hp. destruct run_doc_open as (body0 & S0 & R0).
  exists (body0 ++ Spec.escaped name ++ Spec.doc_mid ++
          String.concat "" (List.map Spec.point_text (List.map escape_point ps)) ++
          Spec.doc_close).
  split.
  - unfold Spec.document. now apply strip_prefix_append.
  - rewrite run_app, R0.
    rewrite run_app, run_escaped by (now apply plain_xml_char).
    rewrite run_app, run_doc_mid.
    rewrite run_app, run_points by exact Hp.
    rewrite run_doc_close.
    rewrite app_nil_r, text_of_string.
    rewrite !rev_app_distr. cbn [List.rev app open_events].
    rewrite <- !app_assoc. reflexivity.
Qed.

(** *** No carriage return in the document *)

Lemma forallb_subst : forall (p q : ascii -> bool) f,
  (forall c, p c = true -> forallb q (f c) = true) ->
  forall s, forallb p s = true -> forallb q (subst f s) = true.
Proof.
  intros p q f H. induction s as [| c t IH]; cbn; [reflexivity |].
  intros E. apply andb_true_iff in E. destruct E as [E1 E2].
  rewrite forallb_app. now rewrite (H _ E1), IH.
Qed.

Lemma escaped_no_cr : forall s,
  forallb plain s = true -> forallb no_cr (Spec.escaped s) = true.
Proof.
  apply forallb_subst. intros c H.
  destruct c as [[] [] [] [] [] [] [] []]; try discriminate H; reflexivity.
Qed.

Lemma attr_no_cr : forall s,
  forallb attr_plain s = true -> forallb no_cr s = true.
Proof.
  apply forallb_impl. intros c H.
  destruct c as [[] [] [] [] [] [] [] []]; try discriminate H; reflexivity.
Qed.

Lemma point_no_cr : forall p,
  plain_point p = true ->
  forallb no_cr (Spec.point_text (escape_point p)) = true.
Proof.
  intros [[la lo] n] H. unfold plain_point in H. cbn [fst snd] in H.
  apply andb_true_iff in H. destruct H as [H Hn].
  apply andb_true_iff in H. destruct H as [Hla Hlo].
  unfold escape_point, Spec.point_text. cbn [fst snd].
  rewrite !forallb_app.
  rewrite (attr_no_cr _ Hla), (attr_no_cr _ Hlo), (escaped_no_cr _ Hn).
  reflexivity.
Qed.

Lemma points_no_cr : forall ps,
  List.forallb plain_point ps = true ->
  forallb no_cr
    (String.concat "" (List.map Spec.point_text (List.map escape_point ps))) = true.
Proof.
  induction ps as [| p ps IH]; intros H; [reflexivity |].
  cbn [List.forallb] in H. apply andb_true_iff in H. destruct H as [Hp H].
  cbn [List.map]. rewrite GpxFacts.concat_cons, forallb_app.
  now rewrite point_no_cr, IH.
Qed.

Lemma document_no_cr : forall name ps,
  forallb plain name = true ->
  List.forallb plain_point ps = true ->
  forallb no_cr (Spec.document (Spec.escaped name) (List.map escape_point ps)) = true.
Proof.
  intros name ps Hn Hp. unfold Spec.document.
  rewrite !forallb_app. rewrite escaped_no_cr, points_no_cr by assumption.
  reflexivity.
Qed.

Theorem tokens_document : forall name ps,
  forallb plain name = true ->
  List.forallb plain_point ps = true ->
  tokens (Spec.document (Spec.escaped name) (List.map escape_point ps)) =
  Some (open_events name ++ List.flat_map point_events ps ++ close_events)%list.
Proof.
  intros name ps Hn Hp. unfold tokens.
  rewrite normalize_plain by (now apply document_no_cr).
  destruct (run_document name ps Hn Hp) as (body & S & R).
  rewrite S, R. cbn [lmode events List.rev].
  rewrite rev_involutive, <- !app_assoc. reflexivity.
Qed.

(** *** The events of a document are well nested *)

Lemma nested_points : forall ps rest,
  nested (List.flat_map point_events ps ++ rest) segment true =
  nested rest segment true.
Proof.
  induction ps as [| p ps IH]; intros rest; [reflexivity |].
  cbn [flat_map]. rewrite <- app_assoc. cbn. apply IH.
Qed.

Lemma nested_document : forall name ps,
  nested (open_events name ++ List.flat_map point_events ps ++ close_events)
         [] false = true.
Proof.
  intros name ps. cbn. fold segment. rewrite nested_points. reflexivity.
Qed.

Theorem lex_document : forall name ps,
  forallb plain name = true ->
  List.forallb plain_point ps = true ->
  lex (Spec.document (Spec.escaped name) (List.map escape_point ps)) =
  Some (open_events name ++ List.flat_map point_events ps ++ close_events)%list.
Proof.
  intros name ps Hn Hp. unfold lex.
  rewrite tokens_document by assumption. now rewrite nested_document.
Qed.

(** *** From the events to the track *)

Lemma see_all_app : forall a b r,
  see_all (a ++ b) r =
  match see_all a r with
  | Some r' => see_all b r'
  | None => None
  end.
Proof.
  induction a as [| e a IH]; intros b r; cbn [app see_all]; [reflexivity |].
  destruct (see r e); [apply IH | reflexivity].
Qed.

Lemma see_open : forall name,
  see_all (open_events name) (Reader [] None "" "" []) =
  Some (in_segment name []).
Proof. reflexivity. Qed.

Lemma see_point : forall p name done,
  see_all (point_events p) (in_segment name done) =
  Some (in_segment name (p :: done)).
Proof. intros [[la lo] n] name done. reflexivity. Qed.

Lemma see_points : forall ps name done,
  see_all (List.flat_map point_events ps) (in_segment name done) =
  Some (in_segment name (List.rev ps ++ done)%list).
Proof.
  induction ps as [| p ps IH]; intros name done; [reflexivity |].
  cbn [flat_map]. rewrite see_all_app, see_point, IH.
  cbn [List.rev]. now rewrite <- app_assoc.
Qed.

Lemma see_close : forall name done,
  see_all close_events (in_segment name done) =
  Some (Reader [] None "" name done).
Proof. reflexivity. Qed.

(** The reader gets the name and the points of a document back. *)
Theorem read_document : forall name ps,
  forallb plain name = true ->
  List.forallb plain_point ps = true ->
  read_gpx (Spec.document (Spec.escaped name) (List.map escape_point ps)) =
  Some (name, ps).
Proof.
  intros name ps Hn Hp. unfold read_gpx.
  rewrite lex_document by assumption.
  rewrite see_all_app, see_open, see_all_app, see_points, see_close.
  cbn [track_name points]. now rewrite app_nil_r, rev_involutive.
Qed.

End ReadFacts.

(** ** The properties of the specification *)

Import Lib.

Section Properties.
Context {P : Platform}.

(** C1, as amended.  When the URL parses, Strategy 1 gives the location
    names [names] and the data parameter, of the query string or decoded
    from the path, holds at least one pair "!1d<lng>!2d<lat>", then the
    scan ends with matches [ms] that are the pairs of the stream, one
    where each pair starts, in left-to-right order, the groups of each
    its two numbers, the second one whole; the waypoints before
    the filter are exactly these pairs, latitude from the [!2d] number
    and longitude from the [!1d] number, named by position ([names]
    first, then "Start", "End", "Via i"), in place of the waypoints of
    Strategy 1; and [parseGoogleMapsUrl] returns those of them that are
    not (0, 0), or throws when none is left. *)
Theorem data_stream_waypoints : forall url u wps names d before a b rest,
  URL_new url = Some u ->
  Spec.strategy1 (Spec.path_segments url) = Ok (wps, names) ->
  Spec.data_parameter u url = Ok (Some d) ->
  d = before ++ "!1d" ++ a ++ "!2d" ++ b ++ rest ->
  Spec.is_decimal a = true ->
  Spec.is_decimal b = true ->
  exists ms,
    Re.exec_all coordRegex d = Some ms /\
    ms <> [] /\
    Forall (Stream.occurrence d) ms /\
    Stream.in_order 0 ms /\
    Stream.complete d ms /\
    candidates url = Ok (Spec.stream_waypoints names ms, names) /\
    parseGoogleMapsUrl url =
      match List.filter (fun w => negb (Spec.origin w))
                        (Spec.stream_waypoints names ms) with
      | [] => Throw (Error errorMessage)
      | v :: vs =>
          Ok {| waypoints := v :: vs;
                routeName := Spec.route_name names (v :: vs) |}
      end.
Proof.
  intros url u wps names d before a b rest HU HS HD Hd Ha Hb.
  destruct (ExtractFacts.exec_coordRegex d) as (ms & HE).
  pose proof (@ScanFacts.exec_all_complete d ms HE) as K.
  assert (HN : ms <> []).
  { destruct (K before a b rest Hd Ha Hb) as (m & Hin & _).
    intros ->. exact Hin. }
  pose proof (ExtractFacts.candidates_stream url HU HS HD HE HN) as C.
  destruct (@StreamFacts.exec_all_occurrences d ms HE) as (F & O).
  exists ms. repeat (split; [assumption |]).
  now rewrite ExtractFacts.parse_of_candidates, C.
Qed.

(** C2.  [parseGoogleMapsUrl] returns the candidate waypoints without
    those whose latitude and longitude are both zero, throws its error
    when none is left, and so every route it returns has a waypoint
    with a latitude or a longitude that is not zero. *)
Theorem origin_waypoints_dropped : forall url,
  parseGoogleMapsUrl url =
    match candidates url with
    | Ok (ws, names) =>
        match List.filter (fun w => negb (Spec.origin w)) ws with
        | [] => Throw (Error errorMessage)
        | v :: vs =>
            Ok {| waypoints := v :: vs;
                  routeName := Spec.route_name names (v :: vs) |}
        end
    | Throw e => Throw e
    | Hang => Hang
    end /\
  match parseGoogleMapsUrl url with
  | Ok rd =>
      Forall (fun w => isZero (lat w) = false \/ isZero (lng w) = false)
             (waypoints rd) /\
      Exists (fun w => isZero (lat w) = false \/ isZero (lng w) = false)
             (waypoints rd)
  | _ => True
  end.
Proof.
  intros url. split; [apply ExtractFacts.parse_of_candidates |].
  rewrite ExtractFacts.parse_of_candidates.
  destruct (candidates url) as [[ws names] | e |]; [| exact I | exact I].
  assert (F : Forall (fun w => isZero (lat w) = false \/ isZero (lng w) = false)
                     (List.filter (fun w => negb (Spec.origin w)) ws)).
  { apply Forall_forall. intros w Hw. apply filter_In in Hw.
    destruct Hw as [_ Hw]. unfold Spec.origin in Hw.
    apply negb_true_iff, andb_false_iff in Hw. exact Hw. }
  destruct (List.filter _ ws) as [| v vs]; [exact I |].
  cbn [waypoints]. split; [exact F |].
  apply Exists_cons_hd. now inversion F.
Qed.

(** C3, as amended.  Strategy 1 looks at the segments between slashes
    after the first directions marker, up to the next "@" or the end of
    the URL, that are neither empty nor white space; a segment
    "<lat>,<lng>" of two signed decimals is a waypoint without a name,
    any other one is, with "+" read as a space and percent-decoded, the
    next location name, and the extraction throws when it cannot be
    decoded. *)
Theorem strategy1_segments : forall url,
  dirStage url = Spec.strategy1 (Spec.path_segments url).
Proof. apply ExtractFacts.dirStage_strategy1. Qed.

(** C4.  The name of a route that is returned follows the rule of three
    branches: with two location names or more, the first and the last
    of them; else with two waypoints or more, the names of the first
    and of the last, or "Start" and "End"; else "Google Maps Route". *)
Theorem route_name_rule : forall url rd,
  parseGoogleMapsUrl url = Ok rd ->
  exists wps names,
    Spec.strategy1 (Spec.path_segments url) = Ok (wps, names) /\
    routeName rd = Spec.route_name names (waypoints rd).
Proof.
  intros url rd H. rewrite ExtractFacts.parse_of_candidates in H.
  destruct (candidates url) as [[ws names] | e |] eqn:C; [| discriminate | discriminate].
  destruct (ExtractFacts.candidates_names url C) as (wps & S1).
  exists wps, names. split; [exact S1 |].
  destruct (List.filter _ ws) as [| v vs]; [discriminate |].
  inversion H; subst rd; reflexivity.
Qed.

(** C5, as amended.  [generateGpx] returns the document of one [gpx]
    with one [trk], named by the override when it is given and not
    empty and by the name of the route otherwise, with one [trkseg] of
    one [trkpt] a waypoint, in order, with its coordinates as [lat] and
    [lon] and, as name, its own name when it has one that is not empty
    and "Waypoint i" otherwise, [i] counted from 1; the names escaped.
    Read as XML, when the texts hold no character a reader changes,
    these are its elements, and no other. *)
Theorem generateGpx_writes_document : forall r override,
  generateGpx r override =
    Spec.document (Spec.escaped (or_else override (routeName r)))
                  (List.map Spec.written (Spec.numbered 1 (waypoints r))) /\
  (Str.forallb Xml.plain (or_else override (routeName r)) = true ->
   List.forallb (fun iw => Events.plain_point (Spec.read_back iw))
                (Spec.numbered 1 (waypoints r)) = true ->
   Xml.lex (generateGpx r override) =
     Some (Events.open_events (or_else override (routeName r)) ++
           List.flat_map Events.point_events
             (List.map Spec.read_back (Spec.numbered 1 (waypoints r))) ++
           Events.close_events)%list).
Proof.
  intros r override. split; [apply GpxFacts.generateGpx_document |].
  intros Hn Hp. rewrite GpxFacts.generateGpx_document.
  replace (List.map Spec.written (Spec.numbered 1 (waypoints r)))
    with (List.map Events.escape_point
            (List.map Spec.read_back (Spec.numbered 1 (waypoints r))))
    by (rewrite List.map_map; reflexivity).
  apply ReadFacts.lex_document; [exact Hn |].
  rewrite List.forallb_forall in *. intros p Hin.
  apply in_map_iff in Hin. destruct Hin as (iw & <- & Hin). now apply Hp.
Qed.

(** C6.  The name of the track and the names of the points stand in the
    document escaped, and nowhere else: the document is the template
    with [escapeXml] of the names and the coordinates.  [escapeXml],
    five replacements in a row with "&" first, replaces each of the
    five reserved characters by its entity and nothing else: an "&" of
    a name gives "&amp;" once. *)
Theorem escapeXml_entities :
  (forall r override,
     generateGpx r override =
     Spec.document
       (escapeXml (or_else override (routeName r)))
       (List.map (fun iw => (Number_toString (lat (snd iw)),
                             Number_toString (lng (snd iw)),
                             escapeXml (Spec.point_name iw)))
                 (Spec.numbered 1 (waypoints r)))) /\
  (forall s, escapeXml s = Str.subst Spec.xml_entity s) /\
  (forall a b,
     escapeXml (a ++ String "&" b) = escapeXml a ++ "&amp;" ++ escapeXml b).
Proof.
  split; [| split].
  - intros r override. rewrite GpxFacts.generateGpx_document.
    rewrite EscapeFacts.escapeXml_escaped. f_equal.
    apply List.map_ext. intros iw. unfold Spec.written.
    now rewrite EscapeFacts.escapeXml_escaped.
  - apply EscapeFacts.escapeXml_escaped.
  - intros a b. rewrite !EscapeFacts.escapeXml_escaped.
    unfold Spec.escaped. now rewrite StrFacts.subst_app.
Qed.

(** C7, as amended.  When the names written hold XML characters other
    than carriage return, and the coordinates are printed without
    markup and read back by [parseFloat] as themselves, the reader gets
    from the document of [generateGpx] the name of the track and one
    point a waypoint, in order: its coordinates and, as name, its own
    name when it has one that is not empty and "Waypoint i" otherwise. *)
Theorem read_gpx_generateGpx : forall r override,
  Str.forallb Xml.plain (or_else override (routeName r)) = true ->
  List.forallb (fun iw => Events.plain_point (Spec.read_back iw))
               (Spec.numbered 1 (waypoints r)) = true ->
  Forall Spec.reads_back (waypoints r) ->
  exists points,
    Xml.read_gpx (generateGpx r override) =
      Some (or_else override (routeName r), points) /\
    points = List.map Spec.read_back (Spec.numbered 1 (waypoints r)) /\
    Spec.same_points_written points (waypoints r).
Proof.
  intros r override Hn Hp Hr.
  exists (List.map Spec.read_back (Spec.numbered 1 (waypoints r))).
  split; [| split; [reflexivity |]].
  - rewrite GpxFacts.generateGpx_document.
    replace (List.map Spec.written (Spec.numbered 1 (waypoints r)))
      with (List.map Events.escape_point
              (List.map Spec.read_back (Spec.numbered 1 (waypoints r))))
      by (rewrite List.map_map; reflexivity).
    apply ReadFacts.read_document; [exact Hn |].
    rewrite List.forallb_forall in *. intros p Hin.
    apply in_map_iff in Hin. destruct Hin as (iw & <- & Hin). now apply Hp.
  - unfold Spec.same_points_written. rewrite List.map_map.
    clear Hn Hp. generalize 1 as i. induction Hr as [| w ws [Hla Hlo] Hr IH]; intros i.
    + reflexivity.
    + cbn [Spec.numbered List.map Spec.read_back fst snd].
      rewrite Hla, Hlo. f_equal. apply IH.
Qed.

(** C8.  [slugify] lowercases, trims, strips what is no word character,
    white space or hyphen, collapses each run of white space,
    underscores and hyphens into one hyphen and trims the hyphens at
    both ends; "Weekend Trip!" gives "weekend-trip" and "  A -- B  "
    gives "a-b". *)
Theorem slugify_spec :
  (forall text, slugify text = Spec.slug text) /\
  slugify "Weekend Trip!" = "weekend-trip" /\
  slugify "  A -- B  " = "a-b".
Proof.
  split; [apply SlugFacts.slugify_slug |]. split; reflexivity.
Qed.


(** C10.  The empty string as name override is no override: the
    document is the one written without it, in which the name of the
    track is the name of the route, escaped; and a reader of the
    document gets the name of the route as the name of the track. *)
Theorem empty_override_is_absent : forall r,
  generateGpx r (Some "") = generateGpx r None /\
  generateGpx r (Some "") =
    Spec.document (Spec.escaped (routeName r))
                  (List.map Spec.written (Spec.numbered 1 (waypoints r))) /\
  (Str.forallb Xml.plain (routeName r) = true ->
   List.forallb (fun iw => Events.plain_point (Spec.read_back iw))
                (Spec.numbered 1 (waypoints r)) = true ->
   Xml.read_gpx (generateGpx r (Some "")) =
     Some (routeName r,
           List.map Spec.read_back (Spec.numbered 1 (waypoints r)))).
Proof.
  intros r. split; [reflexivity | split].
  - apply (GpxFacts.generateGpx_document r (Some "")).
  - intros Hn Hp. rewrite (GpxFacts.generateGpx_document r (Some "")).
    cbn [or_else Str.is_empty].
    replace (List.map Spec.written (Spec.numbered 1 (waypoints r)))
      with (List.map Events.escape_point
              (List.map Spec.read_back (Spec.numbered 1 (waypoints r))))
      by (rewrite List.map_map; reflexivity).
    apply ReadFacts.read_document; [exact Hn |].
    rewrite List.forallb_forall in *. intros p Hin.
    apply in_map_iff in Hin. destruct Hin as (iw & <- & Hin). now apply Hp.
Qed.

End Properties.

(** ** Instances on the reference platform *)

Import Ref Examples.

Lemma data_stream_waypoints_witness :
  URL_new url_stream = Some {| query := "" |} /\
  Spec.strategy1 (Spec.path_segments url_stream) = Ok ([], ["Sydney"; "Melbourne"]) /\
  Spec.data_parameter {| query := "" |} url_stream = Ok (Some data_stream) /\
  data_stream = "!4m2" ++ "!1d" ++ "0" ++ "!2d" ++ "0" ++ "!1d151.2!2d-33.8" /\
  Spec.is_decimal "0" = true /\
  exists ms,
    Re.exec_all coordRegex data_stream = Some ms /\
    ms <> [] /\
    Forall (Stream.occurrence data_stream) ms /\
    Stream.in_order 0 ms /\
    Stream.complete data_stream ms /\
    candidates url_stream =
      Ok (Spec.stream_waypoints ["Sydney"; "Melbourne"] ms,
          ["Sydney"; "Melbourne"]) /\
    parseGoogleMapsUrl url_stream =
      match List.filter (fun w => negb (Spec.origin w))
                        (Spec.stream_waypoints ["Sydney"; "Melbourne"] ms) with
      | [] => Throw (Error errorMessage)
      | v :: vs =>
          Ok {| waypoints := v :: vs;
                routeName := Spec.route_name ["Sydney"; "Melbourne"] (v :: vs) |}
      end.
Proof.
  assert (H1 : URL_new url_stream = Some {| query := "" |}) by reflexivity.
  assert (H2 : Spec.strategy1 (Spec.path_segments url_stream) =
               Ok ([], ["Sydney"; "Melbourne"])) by reflexivity.
  assert (H3 : Spec.data_parameter {| query := "" |} url_stream =
               Ok (Some data_stream)) by reflexivity.
  assert (H4 : data_stream =
               "!4m2" ++ "!1d" ++ "0" ++ "!2d" ++ "0" ++ "!1d151.2!2d-33.8")
    by reflexivity.
  assert (H5 : Spec.is_decimal "0" = true) by reflexivity.
  exact (conj H1 (conj H2 (conj H3 (conj H4 (conj H5
           (@data_stream_waypoints Ref.platform url_stream _ _ _ _ _ _ _ _
              H1 H2 H3 H4 H5 H5)))))).
Defined.

(** The matches of the scan of [data_stream], and what is returned. *)
Example scan_data_stream :
  Re.exec_all coordRegex data_stream = Some matches_stream /\
  parseGoogleMapsUrl url_stream = Ok route_stream.
Proof. split; reflexivity. Qed.

Lemma stream_returned_counterexample : ~ Claims.stream_returned url_stream.
Proof.
  intros H.
  destruct (H {| query := "" |} [] ["Sydney"; "Melbourne"] data_stream matches_stream)
    as (rn & E); try reflexivity; [discriminate |].
  apply (f_equal (map_result (fun r => List.length (waypoints r)))) in E.
  vm_compute in E. discriminate E.
Qed.

Lemma origin_waypoints_dropped_witness :
  parseGoogleMapsUrl url_stream = Ok route_stream /\
  candidates url_origin =
    Ok ([ {| lat := parseFloat "0"; lng := parseFloat "0"; name := None |} ], []) /\
  parseGoogleMapsUrl url_origin = Throw (Error errorMessage) /\
  Exists (fun w => isZero (lat w) = false \/ isZero (lng w) = false)
         (waypoints route_stream).
Proof.
  assert (H1 : parseGoogleMapsUrl url_stream = Ok route_stream) by reflexivity.
  assert (H2 : candidates url_origin =
     Ok ([ {| lat := parseFloat "0"; lng := parseFloat "0"; name := None |} ], []))
    by reflexivity.
  split; [exact H1 |]. split; [exact H2 |]. split.
  - rewrite (proj1 (origin_waypoints_dropped url_origin)), H2. reflexivity.
  - pose proof (proj2 (origin_waypoints_dropped url_stream)) as H.
    rewrite H1 in H. exact (proj2 H).
Defined.

Lemma nonempty_segments_counterexample : ~ Claims.nonempty_segments url_blank.
Proof.
  unfold Claims.nonempty_segments. intros H.
  apply (f_equal (map_result snd)) in H. vm_compute in H. discriminate H.
Qed.

Lemma route_name_rule_witness :
  parseGoogleMapsUrl url_stream = Ok route_stream /\
  exists wps names,
    Spec.strategy1 (Spec.path_segments url_stream) = Ok (wps, names) /\
    routeName route_stream = Spec.route_name names (waypoints route_stream).
Proof.
  assert (H1 : parseGoogleMapsUrl url_stream = Ok route_stream)
    by reflexivity.
  exact (conj H1 (route_name_rule url_stream H1)).
Defined.

Lemma document_as_claimed_counterexample :
  ~ Claims.document_as_claimed route_named (Some "").
Proof.
  unfold Claims.document_as_claimed. intros H.
  apply (f_equal String.length) in H. vm_compute in H. discriminate H.
Qed.

Lemma generateGpx_writes_document_witness :
  Str.forallb Xml.plain (or_else (Some "A & B") (routeName route_two)) = true /\
  List.forallb (fun iw => Events.plain_point (Spec.read_back iw))
               (Spec.numbered 1 (waypoints route_two)) = true /\
  generateGpx route_two (Some "A & B") =
    Spec.document (Spec.escaped "A & B")
                  (List.map Spec.written (Spec.numbered 1 (waypoints route_two))) /\
  Xml.lex (generateGpx route_two (Some "A & B")) =
    Some (Events.open_events "A & B" ++
          List.flat_map Events.point_events
            (List.map Spec.read_back (Spec.numbered 1 (waypoints route_two))) ++
          Events.close_events)%list.
Proof.
  assert (H1 : Str.forallb Xml.plain
                 (or_else (Some "A & B") (routeName route_two)) = true)
    by reflexivity.
  assert (H2 : List.forallb (fun iw => Events.plain_point (Spec.read_back iw))
                 (Spec.numbered 1 (waypoints route_two)) = true)
    by reflexivity.
  split; [exact H1 |]. split; [exact H2 |]. split.
  - exact (proj1 (generateGpx_writes_document route_two (Some "A & B"))).
  - exact (proj2 (generateGpx_writes_document route_two (Some "A & B")) H1 H2).
Defined.

Lemma round_trip_counterexample : ~ Claims.round_trip route_unnamed.
Proof.
  intros (track & points & H1 & H2).
  vm_compute in H1. inversion H1; subst track points; clear H1.
  unfold Spec.same_points in H2.
  apply (f_equal (List.map snd)) in H2. vm_compute in H2. discriminate H2.
Qed.

Lemma read_gpx_generateGpx_witness :
  Str.forallb Xml.plain (or_else None (routeName route_two)) = true /\
  List.forallb (fun iw => Events.plain_point (Spec.read_back iw))
               (Spec.numbered 1 (waypoints route_two)) = true /\
  Forall Spec.reads_back (waypoints route_two) /\
  exists points,
    Xml.read_gpx (generateGpx route_two None) =
      Some (or_else None (routeName route_two), points) /\
    points = List.map Spec.read_back (Spec.numbered 1 (waypoints route_two)) /\
    Spec.same_points_written points (waypoints route_two).
Proof.
  assert (H1 : Str.forallb Xml.plain (or_else None (routeName route_two)) = true)
    by reflexivity.
  assert (H2 : List.forallb (fun iw => Events.plain_point (Spec.read_back iw))
                 (Spec.numbered 1 (waypoints route_two)) = true)
    by reflexivity.
  assert (H3 : Forall Spec.reads_back (waypoints route_two)).
  { repeat constructor; reflexivity. }
  exact (conj H1 (conj H2 (conj H3 (read_gpx_generateGpx route_two None H1 H2 H3)))).
Defined.

Lemma empty_override_is_absent_witness :
  Str.forallb Xml.plain (routeName route_two) = true /\
  List.forallb (fun iw => Events.plain_point (Spec.read_back iw))
               (Spec.numbered 1 (waypoints route_two)) = true /\
  generateGpx route_two (Some "") = generateGpx route_two None /\
  generateGpx route_two (Some "") =
    Spec.document (Spec.escaped (routeName route_two))
                  (List.map Spec.written (Spec.numbered 1 (waypoints route_two))) /\
  Xml.read_gpx (generateGpx route_two (Some "")) =
    Some (routeName route_two,
          List.map Spec.read_back (Spec.numbered 1 (waypoints route_two))).
Proof.
  assert (H1 : Str.forallb Xml.plain (routeName route_two) = true)
    by reflexivity.
  assert (H2 : List.forallb (fun iw => Events.plain_point (Spec.read_back iw))
                 (Spec.numbered 1 (waypoints route_two)) = true)
    by reflexivity.
  split; [exact H1 |]. split; [exact H2 |].
  destruct (empty_override_is_absent route_two) as (E1 & E2 & E3).
  exact (conj E1 (conj E2 (E3 H1 H2))).
Defined.

(** What is read back of [route_two]. *)
Example read_route_two :
  Xml.read_gpx (generateGpx route_two None) =
  Some ("Sydney's route",
        [ ("-33.8688", "151.2093", "Waypoint 1");
          ("-37.8", "144.9", "Tom & <Jerry>") ]).
Proof. reflexivity. Qed.

(** The file name depends on the clock; the document does not. *)
Example filename_depends_on_clock :
  eval (generateOutputFilename (Some "Weekend Trip!")) morning =
    "weekend-trip-20240105-070809.gpx" /\
  eval (generateOutputFilename (Some "Weekend Trip!")) evening =
    "weekend-trip-20241231-235958.gpx" /\
  eval (generateOutputFilename None) morning = "route-20240105-070809.gpx".
Proof. repeat split; reflexivity. Qed.

(** The path alone: the names are kept, the point is the viewport. *)
Example path_without_data :
  parseGoogleMapsUrl "https://www.google.com/maps/dir/Sydney/Melbourne/@-37.8,144.9,10z" =
  Ok {| waypoints := [ {| lat := parseFloat "-37.8"; lng := parseFloat "144.9";
                          name := None |} ];
        routeName := "Sydney to Melbourne" |}.
Proof. reflexivity. Qed.

Example no_coordinates :
  parseGoogleMapsUrl "https://www.google.com/maps/dir/Sydney/Melbourne" =
  Throw (Error errorMessage).
Proof. reflexivity. Qed.

Example not_a_url : parseGoogleMapsUrl "Sydney to Melbourne" = Throw TypeError.
Proof. reflexivity. Qed.

Example malformed_escape :
  parseGoogleMapsUrl "https://www.google.com/maps/dir/100%/Melbourne/@-37.8,144.9,10z" =
  Throw URIError.
Proof. reflexivity. Qed.

Example three_pairs_two_names :
  map_result (fun r => (routeName r, List.map name (waypoints r)))
    (parseGoogleMapsUrl
       "https://www.google.com/maps/dir/Sydney/Melbourne/@-35,148,7z?data=!1d151.2!2d-33.8!1d149.1!2d-35.2!1d144.9!2d-37.8") =
  Ok ("Sydney to Melbourne", [Some "Sydney"; Some "Melbourne"; Some "End"]).
Proof. reflexivity. Qed.

Example escape_ampersand :
  escapeXml "Tom & Jerry" = "Tom &amp; Jerry" /\
  escapeXml "&amp;" = "&amp;amp;".
Proof. split; reflexivity. Qed.

(** The reader takes a document that is well formed, and refuses the
    empty text, a second root, text outside the root, a declaration
    that is not at the start, an attribute given twice, a prefix that
    is not declared, a tag that is not closed or closed by another, a
    bare "&", "<" in a value and "]]>" in character data. *)
Example reader_takes :
  Xml.read_gpx "<gpx></gpx>" = Some ("", []) /\
  Xml.read_gpx (Xml.declaration ++ nl ++ "<gpx><trk><name>A &amp; B</name>" ++
                "<trkseg><trkpt lat=" ++ q "1" ++ " lon=" ++ q "2" ++
                "></trkpt></trkseg></trk></gpx>" ++ nl) =
    Some ("A & B", [("1", "2", "")]).
Proof. split; reflexivity. Qed.

Example reader_refuses :
  List.map Xml.read_gpx
    [ "";
      Xml.declaration;
      "<gpx></gpx><gpx></gpx>";
      "x<gpx></gpx>";
      "<gpx></gpx>x";
      nl ++ Xml.declaration ++ "<gpx></gpx>";
      Xml.declaration ++ Xml.declaration ++ "<gpx></gpx>";
      "<gpx a=" ++ q "1" ++ " a=" ++ q "2" ++ "></gpx>";
      "<gpx a:b=" ++ q "1" ++ "></gpx>";
      "<gpx a=" ++ q "<" ++ "></gpx>";
      "<gpx><trk></gpx>";
      "<gpx><trk></trk>";
      "<gpx>&</gpx>";
      "<gpx>&nbsp;</gpx>";
      "<gpx>]]></gpx>";
      "<gpx><!-- --></gpx>";
      "<trk></trk>" ] =
  List.repeat None 17.
Proof. reflexivity. Qed.
